(** * Brain Dump Categorizer: a shallow embedding of [Categorizer]

    The program is the object [Categorizer] (category table, [categorize],
    [getAllCategories], [addKeyword], [extractTags]).  It is embedded over
    a small model of the part of the JavaScript runtime it calls:
    strings as sequences of UTF-16 code units, the values a caller can
    pass, ordinary objects used as insertion-ordered maps, the insertion
    ordered [Set], and regular expressions with the backtracking
    semantics of ECMA-262.

    The host's case tables ([toLowerCase], the canonical form of a
    case-insensitive pattern) are a parameter, [Unicode]; [Latin] is an
    instance to run examples with.

    Numbers: a score is a sum of 2s and 3s, far below 2^53, so it is an
    exact integer ([Z]).  The confidence is the exact rational
    [min (bestScore / 15) 1]; IEEE division rounds it to the nearest
    double, which is monotone and keeps 0 and 1 fixed. *)

From Stdlib Require Import Ascii String.
From Stdlib Require Import List Bool NArith ZArith QArith Qminmax Lia.
Import ListNotations.

Set Implicit Arguments.
Close Scope Q_scope.

(* ===================================================================== *)
(** ** Strings *)
(* ===================================================================== *)

Module JSString.

(** A string is a sequence of 16-bit code units. *)
Definition code_unit := N.
Definition jsstring := list code_unit.

Definition jsstring_eq_dec : forall a b : jsstring, {a = b} + {a <> b} :=
  list_eq_dec N.eq_dec.

Definition eqb (a b : jsstring) : bool :=
  if jsstring_eq_dec a b then true else false.

(** Source literals are written as Rocq strings (UTF-8) and decoded to
    UTF-16: [need] counts the continuation bytes still expected and [acc]
    carries the bits read so far. *)
Fixpoint utf8_code_points (bs : list N) (need : nat) (acc : N) : list N :=
  match bs with
  | [] => []
  | b :: bs' =>
      match need with
      | O =>
          if (b <? 128)%N then b :: utf8_code_points bs' 0 0%N
          else if (b <? 224)%N then utf8_code_points bs' 1 (b - 192)%N
          else if (b <? 240)%N then utf8_code_points bs' 2 (b - 224)%N
          else utf8_code_points bs' 3 (b - 240)%N
      | S O => (acc * 64 + (b - 128))%N :: utf8_code_points bs' 0 0%N
      | S n => utf8_code_points bs' n (acc * 64 + (b - 128))%N
      end
  end.

Definition utf16_units (cp : N) : jsstring :=
  if (cp <? 65536)%N then [cp]
  else [(55296 + (cp - 65536) / 1024)%N; (56320 + (cp - 65536) mod 1024)%N].

Definition js (s : string) : jsstring :=
  flat_map utf16_units
    (utf8_code_points (map N_of_ascii (list_ascii_of_string s)) 0 0%N).

(** [s.startsWith(k)] and [s.includes(k)]. *)
Fixpoint startsWith (s k : jsstring) : bool :=
  match k, s with
  | [], _ => true
  | _ :: _, [] => false
  | c :: k', d :: s' => (c =? d)%N && startsWith s' k'
  end.

Fixpoint includes (s k : jsstring) : bool :=
  startsWith s k ||
  match s with
  | [] => false
  | _ :: s' => includes s' k
  end.

(** [s.slice(1)]. *)
Definition slice1 (s : jsstring) : jsstring := tl s.

(** WhiteSpace and LineTerminator code points of ECMA-262: what [trim]
    strips and what the class escape [\s] matches. *)
Definition white_space_units : list code_unit :=
  [9; 10; 11; 12; 13; 32; 160; 5760;
   8192; 8193; 8194; 8195; 8196; 8197; 8198; 8199; 8200; 8201; 8202;
   8232; 8233; 8239; 8287; 12288; 65279]%N.

Definition is_white_space (c : code_unit) : bool :=
  existsb (N.eqb c) white_space_units.

Definition is_line_terminator (c : code_unit) : bool :=
  existsb (N.eqb c) [10; 13; 8232; 8233]%N.

Fixpoint trimStart (s : jsstring) : jsstring :=
  match s with
  | [] => []
  | c :: s' => if is_white_space c then trimStart s' else s
  end.

Definition trimEnd (s : jsstring) : jsstring := rev (trimStart (rev s)).

Definition trim (s : jsstring) : jsstring := trimEnd (trimStart s).

(** The host's Unicode tables: [toLowerCase] on strings and the
    [Canonicalize] operation of case-insensitive regular expressions. *)
Class Unicode := {
  toLowerCase : jsstring -> jsstring;
  canonicalize : code_unit -> code_unit
}.

End JSString.

Import JSString.

(* ===================================================================== *)
(** ** Regular expressions *)
(* ===================================================================== *)

Module RegExp.

(** The pattern syntax the program uses: literals, classes with the
    escapes [\d \w \s] and their complements, sequence, alternation,
    greedy quantifiers and the assertions [^] and [$].  Groups only
    delimit alternatives here (no capture is ever read), so they leave
    no node of their own. *)
Inductive class_item :=
| CChar (c : code_unit)
| CRange (lo hi : code_unit)
| CDigit | CNotDigit
| CWord | CNotWord
| CSpace | CNotSpace.

Inductive regex :=
| Empty
| Char (c : code_unit)
| Class (invert : bool) (items : list class_item)
| Seq (r1 r2 : regex)
| Alt (r1 r2 : regex)
| Repeat (min : nat) (max : option nat) (r : regex)
| Caret
| Dollar.

Record RegExp := {
  source : regex;
  ignoreCase : bool;
  multiline : bool;
  global : bool
}.

Definition is_digit (c : code_unit) : bool := ((48 <=? c) && (c <=? 57))%N.

Definition is_word (c : code_unit) : bool :=
  (((97 <=? c) && (c <=? 122)) || ((65 <=? c) && (c <=? 90))
   || is_digit c || (c =? 95))%N.

Definition item_has (it : class_item) (c : code_unit) : bool :=
  match it with
  | CChar a => (a =? c)%N
  | CRange lo hi => ((lo <=? c) && (c <=? hi))%N
  | CDigit => is_digit c
  | CNotDigit => negb (is_digit c)
  | CWord => is_word c
  | CNotWord => negb (is_word c)
  | CSpace => is_white_space c
  | CNotSpace => negb (is_white_space c)
  end.

Fixpoint units_from (lo : code_unit) (n : nat) : list code_unit :=
  match n with
  | O => []
  | S n' => lo :: units_from (N.succ lo) n'
  end.

(** The members of a class item, enumerated: a case-insensitive class
    matches a unit when some member has the same canonical form. *)
Definition item_members (it : class_item) : list code_unit :=
  match it with
  | CChar a => [a]
  | CRange lo hi => units_from lo (N.to_nat (N.succ hi - lo))
  | CDigit => units_from 48%N 10
  | CSpace => white_space_units
  | _ => filter (item_has it) (units_from 0%N (N.to_nat 65536))
  end.

(** A match state: the unit just before the current position (none at
    the start of the input) and the input still to be read. *)
Record state := { prev : option code_unit; rest : jsstring }.

Definition continuation := state -> option state.

Section Matcher.

Context {U : Unicode}.
Variables (ic ml : bool).

Definition canon (c : code_unit) : code_unit :=
  if ic then canonicalize c else c.

Definition set_matches (invert : bool) (items : list class_item)
    (ch : code_unit) : bool :=
  xorb invert
    (if ic
     then existsb (fun a => (canonicalize a =? canonicalize ch)%N)
            (flat_map item_members items)
     else existsb (fun it => item_has it ch) items).

Definition at_line_start (x : state) : bool :=
  match prev x with
  | None => true
  | Some c => ml && is_line_terminator c
  end.

Definition at_line_end (x : state) : bool :=
  match rest x with
  | [] => true
  | c :: _ => ml && is_line_terminator c
  end.

(** [RepeatMatcher] of ECMA-262 (22.2.2.3.1) for a greedy quantifier:
    [mr] matches the quantified atom.  An iteration that is not required
    and reads nothing is rejected, so at most [min + length (rest x)]
    iterations nest, and [fuel] is one more than that. *)
Fixpoint RepeatMatcher (mr : continuation -> state -> option state)
    (k : continuation) (fuel mn : nat) (mx : option nat) (x : state)
    : option state :=
  match fuel with
  | O => None
  | S fuel' =>
      match mx with
      | Some O => k x
      | _ =>
          let d := fun y : state =>
            if (mn =? 0)%nat && (length (rest y) =? length (rest x))%nat
            then None
            else RepeatMatcher mr k fuel' (pred mn) (option_map pred mx) y in
          if (mn =? 0)%nat
          then match mr d x with
               | Some z => Some z
               | None => k x
               end
          else mr d x
      end
  end.

(** The backtracking matcher of ECMA-262 (22.2.2), captures left out.
    [m r k x] runs [r] at [x] and hands every way it can match to the
    continuation [k], in priority order, until [k] succeeds. *)
Fixpoint m (r : regex) (k : continuation) (x : state) : option state :=
  match r with
  | Empty => k x
  | Char c =>
      match rest x with
      | ch :: s' =>
          if (canon c =? canon ch)%N
          then k {| prev := Some ch; rest := s' |} else None
      | [] => None
      end
  | Class invert items =>
      match rest x with
      | ch :: s' =>
          if set_matches invert items ch
          then k {| prev := Some ch; rest := s' |} else None
      | [] => None
      end
  | Seq r1 r2 => m r1 (fun y => m r2 k y) x
  | Alt r1 r2 =>
      match m r1 k x with
      | Some z => Some z
      | None => m r2 k x
      end
  | Repeat mn mx r' =>
      RepeatMatcher (m r') k (mn + length (rest x) + 1) mn mx x
  | Caret => if at_line_start x then k x else None
  | Dollar => if at_line_end x then k x else None
  end.

End Matcher.

Section Exec.

Context {U : Unicode}.

(** [RegExpBuiltinExec] from a position: the leftmost position at or
    after it where the pattern matches, as the matched substring and the
    state after it. *)
Fixpoint exec_from (re : RegExp) (p : option code_unit) (s : jsstring)
    : option (jsstring * state) :=
  match m (ignoreCase re) (multiline re) (source re) (fun y => Some y)
          {| prev := p; rest := s |} with
  | Some y => Some (firstn (length s - length (rest y)) s, y)
  | None =>
      match s with
      | [] => None
      | c :: s' => exec_from re (Some c) s'
      end
  end.

(** [re.test(text)] for a pattern without the [g] and [y] flags: the
    search starts at index 0 and [lastIndex] is neither read nor
    written, so the call has no state. *)
Definition test (re : RegExp) (text : jsstring) : bool :=
  match exec_from re None text with
  | Some _ => true
  | None => false
  end.

(** The loop of [RegExp.prototype[Symbol.match]] for a global pattern:
    [lastIndex] starts at 0, moves to the end of every match, and one
    unit further after an empty match.  Every round moves forward, so
    [length text + 1] rounds are enough. *)
Fixpoint match_loop (fuel : nat) (re : RegExp) (p : option code_unit)
    (s : jsstring) : list jsstring :=
  match fuel with
  | O => []
  | S fuel' =>
      match exec_from re p s with
      | None => []
      | Some (str, y) =>
          str ::
          match str with
          | _ :: _ => match_loop fuel' re (prev y) (rest y)
          | [] =>
              match rest y with
              | [] => []
              | c :: s' => match_loop fuel' re (Some c) s'
              end
          end
      end
  end.

(** [text.match(re)] for a global [re]: [None] is JavaScript's [null]
    (no match at all), otherwise the array of all matched substrings. *)
Definition match_global (text : jsstring) (re : RegExp)
    : option (list jsstring) :=
  match match_loop (length text + 1) re None text with
  | [] => None
  | l => Some l
  end.

End Exec.

(** Helpers to write patterns. *)
Fixpoint lit_units (s : jsstring) : regex :=
  match s with
  | [] => Empty
  | [c] => Char c
  | c :: s' => Seq (Char c) (lit_units s')
  end.

Definition lit (s : string) : regex := lit_units (js s).

Fixpoint seq (rs : list regex) : regex :=
  match rs with
  | [] => Empty
  | [r] => r
  | r :: rs' => Seq r (seq rs')
  end.

Fixpoint alt (rs : list regex) : regex :=
  match rs with
  | [] => Empty
  | [r] => r
  | r :: rs' => Alt r (alt rs')
  end.

Definition star (r : regex) : regex := Repeat 0 None r.
Definition plus (r : regex) : regex := Repeat 1 None r.
Definition opt (r : regex) : regex := Repeat 0 (Some 1%nat) r.
Definition times (lo hi : nat) (r : regex) : regex := Repeat lo (Some hi) r.
Definition digit : regex := Class false [CDigit].
Definition word : regex := Class false [CWord].
Definition space : regex := Class false [CSpace].
Definition not_space : regex := Class false [CNotSpace].
Definition one_of (items : list class_item) : regex := Class false items.
Definition ch (s : string) : class_item := CChar (hd 0%N (js s)).

Definition regexp (flags : string) (r : regex) : RegExp :=
  {| source := r;
     ignoreCase := includes (js flags) (js "i");
     multiline := includes (js flags) (js "m");
     global := includes (js flags) (js "g") |}.

End RegExp.

(* ===================================================================== *)
(** ** A concrete Unicode table *)
(* ===================================================================== *)

Module Latin.

(** The case mappings of Unicode on the blocks Basic Latin, Latin-1
    Supplement and Latin Extended-A, which hold the alphabet of the
    built-in table; every other unit is left as it is.  The theorems
    below hold for any table ([Unicode] is a parameter); this one is for
    running the program on examples. *)
Definition between (lo hi c : N) : bool := ((lo <=? c) && (c <=? hi))%N.

(** Upper-case letters of Latin Extended-A that sit one below their
    lower-case form. *)
Definition upper_of_pair (c : N) : bool :=
  ((between 256 303 c || between 306 311 c || between 330 375 c)
   && N.even c)
  || ((between 313 328 c || between 377 382 c) && N.odd c).

Definition lower_unit (c : code_unit) : jsstring :=
  if between 65 90 c then [c + 32]%N
  else if between 192 222 c && negb (c =? 215)%N then [c + 32]%N
  else if (c =? 304)%N then [105; 775]%N
  else if (c =? 376)%N then [255]%N
  else if upper_of_pair c then [c + 1]%N
  else [c].

(** [Canonicalize] without the [u] flag: the upper-case form when it is
    a single unit, except that a non-ASCII unit never maps to ASCII. *)
Definition upper_unit (c : code_unit) : code_unit :=
  if between 97 122 c then (c - 32)%N
  else if between 224 254 c && negb (c =? 247)%N then (c - 32)%N
  else if (c =? 255)%N then 376%N
  else if (c =? 181)%N then 924%N
  else if (1 <=? c)%N && upper_of_pair (c - 1) then (c - 1)%N
  else c.

#[export] Instance unicode : Unicode := {|
  toLowerCase := flat_map lower_unit;
  canonicalize := upper_unit
|}.

End Latin.

(* ===================================================================== *)
(** ** Values, completions, objects, sets *)
(* ===================================================================== *)

Module JS.

(** Numbers a caller can pass: only their truth value and their string
    form (as a property key) are observed.  [Int z] is an integer below
    2^53 in size, whose string form is its decimal numeral. *)
Inductive number := NaN | Infinity (negative : bool) | Int (z : Z).

(** The values a caller can pass: the primitives, and [VObject], an
    object with no own property (the literal [{}]). *)
Inductive value :=
| VUndefined
| VNull
| VBoolean (b : bool)
| VNumber (n : number)
| VString (s : jsstring)
| VObject.

(** A call either returns or throws; the only exception the program can
    meet is a [TypeError]. *)
Inductive error := TypeError.

Inductive completion (A : Type) :=
| Normal (a : A)
| Throw (e : error).

Arguments Normal {A} a.
Arguments Throw {A} e.

Definition typeof (v : value) : jsstring :=
  match v with
  | VUndefined => js "undefined"
  | VNull => js "object"
  | VBoolean _ => js "boolean"
  | VNumber _ => js "number"
  | VString _ => js "string"
  | VObject => js "object"
  end.

Definition ToBoolean (v : value) : bool :=
  match v with
  | VUndefined | VNull => false
  | VBoolean b => b
  | VNumber NaN => false
  | VNumber (Infinity _) => true
  | VNumber (Int z) => negb (z =? 0)%Z
  | VString s => match s with [] => false | _ => true end
  | VObject => true
  end.

Fixpoint uint_units (d : Decimal.uint) : jsstring :=
  match d with
  | Decimal.Nil => []
  | Decimal.D0 d' => 48%N :: uint_units d'
  | Decimal.D1 d' => 49%N :: uint_units d'
  | Decimal.D2 d' => 50%N :: uint_units d'
  | Decimal.D3 d' => 51%N :: uint_units d'
  | Decimal.D4 d' => 52%N :: uint_units d'
  | Decimal.D5 d' => 53%N :: uint_units d'
  | Decimal.D6 d' => 54%N :: uint_units d'
  | Decimal.D7 d' => 55%N :: uint_units d'
  | Decimal.D8 d' => 56%N :: uint_units d'
  | Decimal.D9 d' => 57%N :: uint_units d'
  end.

Definition Number_toString (n : number) : jsstring :=
  match n with
  | NaN => js "NaN"
  | Infinity false => js "Infinity"
  | Infinity true => js "-Infinity"
  | Int z =>
      match Z.to_int z with
      | Decimal.Pos d => uint_units d
      | Decimal.Neg d => 45%N :: uint_units d
      end
  end.

(** [ToPropertyKey]: the string a value names a property by. *)
Definition ToPropertyKey (v : value) : jsstring :=
  match v with
  | VUndefined => js "undefined"
  | VNull => js "null"
  | VBoolean true => js "true"
  | VBoolean false => js "false"
  | VNumber n => Number_toString n
  | VString s => s
  | VObject => js "[object Object]"
  end.

(** An ordinary object with string keys, as the list of its own
    properties in creation order. *)
Definition object (A : Type) := list (jsstring * A).

Section Objects.

Variable A : Type.

Fixpoint own (o : object A) (key : jsstring) : option A :=
  match o with
  | [] => None
  | (k, a) :: o' => if JSString.eqb k key then Some a else own o' key
  end.

Definition keys (o : object A) : list jsstring := map fst o.

(** The properties every ordinary object inherits from
    [Object.prototype] (ECMA-262 20.1.3 and B.2.2). *)
Definition Object_prototype_keys : list jsstring :=
  map js ["constructor"; "__defineGetter__"; "__defineSetter__";
          "hasOwnProperty"; "__lookupGetter__"; "__lookupSetter__";
          "isPrototypeOf"; "propertyIsEnumerable"; "toString"; "valueOf";
          "__proto__"; "toLocaleString"]%string.

(** What [o[key]] evaluates to: an own property, a member of
    [Object.prototype] found up the prototype chain (a function, or the
    prototype itself for [__proto__]: truthy, and not one of [o]'s
    values), or [undefined]. *)
Inductive property :=
| Own (a : A)
| Inherited
| Undefined.

Definition get (o : object A) (key : jsstring) : property :=
  match own o key with
  | Some a => Own a
  | None =>
      if existsb (JSString.eqb key) Object_prototype_keys
      then Inherited else Undefined
  end.

(** [o[key] = a]: an own property keeps its place, a new one goes last.
    Assigning a primitive to [__proto__] runs the inherited setter,
    which ignores it and creates nothing. *)
Fixpoint put (o : object A) (key : jsstring) (a : A) : object A :=
  match o with
  | [] => [(key, a)]
  | (k, b) :: o' =>
      if JSString.eqb k key then (k, a) :: o' else (k, b) :: put o' key a
  end.

Definition assign (o : object A) (key : jsstring) (a : A) : object A :=
  match own o key with
  | Some _ => put o key a
  | None => if JSString.eqb key (js "__proto__") then o else put o key a
  end.

(** A key is an array index when it is the canonical numeral of an
    integer below 2^32 - 1. *)
Fixpoint numeral (s : jsstring) (acc : N) : option N :=
  match s with
  | [] => Some acc
  | c :: s' =>
      if RegExp.is_digit c then numeral s' (acc * 10 + (c - 48))%N else None
  end.

Definition array_index (key : jsstring) : option N :=
  match key with
  | [] => None
  | [48%N] => Some 0%N
  | 48%N :: _ => None
  | _ =>
      match numeral key 0%N with
      | Some n => if (n <? 4294967295)%N then Some n else None
      | None => None
      end
  end.

Fixpoint insert_index (e : N * (jsstring * A)) (l : list (N * (jsstring * A)))
    : list (N * (jsstring * A)) :=
  match l with
  | [] => [e]
  | e' :: l' =>
      if (fst e <? fst e')%N then e :: l else e' :: insert_index e l'
  end.

Definition index_entries (o : object A) : list (N * (jsstring * A)) :=
  fold_right insert_index []
    (flat_map (fun e => match array_index (fst e) with
                        | Some n => [(n, e)]
                        | None => []
                        end) o).

Definition is_index (key : jsstring) : bool :=
  match array_index key with Some _ => true | None => false end.

(** [Object.entries(o)]: the array-index keys in ascending order, then
    the other keys in creation order. *)
Definition Object_entries (o : object A) : list (jsstring * A) :=
  map snd (index_entries o) ++ filter (fun e => negb (is_index (fst e))) o.

End Objects.

Arguments Own {A} a.
Arguments Inherited {A}.
Arguments Undefined {A}.

(** [new Set(xs)] and [[...set]]: a [Set] keeps its elements in
    insertion order, and adding an element it already holds does
    nothing. *)
Definition Set_has (s : list jsstring) (x : jsstring) : bool :=
  existsb (JSString.eqb x) s.

Definition Set_add (s : list jsstring) (x : jsstring) : list jsstring :=
  if Set_has s x then s else s ++ [x].

Definition new_Set (xs : list jsstring) : list jsstring :=
  fold_left Set_add xs [].

End JS.

(* ===================================================================== *)
(** ** The program *)
(* ===================================================================== *)

Module Categorizer.

Import JS RegExp.

Record CategoryData := {
  icon : jsstring;
  keywords : list jsstring;
  patterns : list RegExp
}.

Definition table := object CategoryData.

Definition entry (name ico : string) (kws : list string) (pats : list RegExp)
    : jsstring * CategoryData :=
  (js name, {| icon := js ico; keywords := map js kws; patterns := pats |}).

(** The double quote, which the patterns of [inspiracja] list. *)
Definition quote : class_item := CChar 34%N.

Section Table.

Local Open Scope string_scope.

(** [Categorizer.categories], entry by entry as the source lists it. *)
Definition categories : table :=
  [ entry "zadanie" "✅"
      ["zrobić"; "kupić"; "zadzwonić"; "wysłać"; "sprawdzić"; "naprawić";
       "umówić"; "zapłacić"; "oddać"; "odebrać"; "przygotować"; "dokończyć";
       "todo"; "task"; "must"; "trzeba"; "muszę"; "należy"; "pamiętaj"]
      [ regexp "m" (seq [Caret; one_of [ch "-"; ch "•"; ch "*"]; space]);
        regexp "m" (seq [Caret; plus digit; one_of [ch "."; ch ")"]; space]);
        regexp "i" (lit "do zrobienia");
        regexp "i" (lit "lista") ];
    entry "pomysł" "💡"
      ["pomysł"; "idea"; "może"; "można by"; "co jeśli"; "a gdyby";
       "warto by"; "fajnie by było"; "koncept"; "innowacja"; "projekt"]
      [ regexp "i" (seq [Caret; lit "co "; alt [lit "jeśli"; lit "gdyby"]]);
        regexp "i" (seq [Caret; lit "a "; alt [lit "może"; lit "gdyby"]]);
        regexp "" (lit "!") ];
    entry "pytanie" "❓"
      ["dlaczego"; "jak"; "kiedy"; "gdzie"; "kto"; "co"; "czy";
       "który"; "ile"; "czemu"; "po co"; "skąd"]
      [ regexp "" (seq [lit "?"; Dollar]);
        regexp "" (seq [lit "?"; star (one_of [ch "."; ch "!"; CSpace]);
                        Dollar]);
        regexp "i" (seq [Caret;
                         alt [lit "jak"; lit "dlaczego"; lit "kiedy";
                              lit "gdzie"; lit "kto"; lit "co"; lit "czy"]]) ];
    entry "praca" "💼"
      ["spotkanie"; "meeting"; "deadline"; "projekt"; "klient"; "szef";
       "zespół"; "prezentacja"; "raport"; "email"; "mail"; "firma";
       "biuro"; "praca"; "zlecenie"; "kontrakt"; "umowa"; "faktura"]
      [ regexp "" (seq [lit "@"; plus word]);
        regexp "i" (lit "deadline");
        regexp "i" (lit "ASAP") ];
    entry "zakupy" "🛒"
      ["kupić"; "sklep"; "zakupy"; "lista zakupów"; "zamówić";
       "cena"; "promocja"; "rabat"; "allegro"; "amazon"; "olx"]
      [ regexp "i" (seq [plus digit; star space;
                         alt [lit "zł"; lit "pln"; lit "€"; lit "$"]]);
        regexp "i" (lit "kupić") ];
    entry "wydarzenie" "📅"
      ["spotkanie"; "wizyta"; "urodziny"; "rocznica"; "impreza";
       "koncert"; "wyjazd"; "lot"; "rezerwacja"; "termin"; "data"]
      [ regexp "" (seq [times 1 2 digit; one_of [ch "."; ch "/"; ch "-"];
                        times 1 2 digit]);
        regexp "" (seq [lit "o"; plus space; times 1 2 digit; lit ":";
                        times 2 2 digit]);
        regexp "i" (alt [lit "poniedziałek"; lit "wtorek"; lit "środa";
                         lit "czwartek"; lit "piątek"; lit "sobota";
                         lit "niedziela"]);
        regexp "i" (alt [lit "styczeń"; lit "luty"; lit "marzec";
                         lit "kwiecień"; lit "maj"; lit "czerwiec";
                         lit "lipiec"; lit "sierpień"; lit "wrzesień";
                         lit "październik"; lit "listopad"; lit "grudzień"]) ];
    entry "notatka" "📝"
      ["notatka"; "zapamiętać"; "ważne"; "uwaga"; "info"; "informacja"]
      [];
    entry "inspiracja" "✨"
      ["cytat"; "motywacja"; "inspiracja"; "marzenie"; "cel"; "sukces";
       "motto"; "życie"; "przyszłość"; "wizja"]
      [ regexp "" (seq [Caret; one_of [quote; ch "„"; quote]]);
        regexp "" (seq [one_of [quote; quote]; Dollar]) ];
    entry "kontakt" "👤"
      ["telefon"; "numer"; "adres"; "email"; "kontakt"; "osoba"]
      [ regexp "" (seq [times 3 3 digit; opt (one_of [CSpace; ch "-"]);
                        times 3 3 digit; opt (one_of [CSpace; ch "-"]);
                        times 3 3 digit]);
        regexp "" (seq [plus not_space; lit "@"; plus not_space; lit ".";
                        plus not_space]) ];
    entry "finanse" "💰"
      ["pieniądze"; "kasa"; "przelew"; "rachunek"; "opłata"; "rata";
       "kredyt"; "oszczędności"; "budżet"; "wydatek"; "koszt"; "pensja"]
      [ regexp "i" (seq [plus digit; star space;
                         alt [lit "zł"; lit "pln"; lit "€"; lit "$";
                              lit "tys"]]) ];
    entry "zdrowie" "🏥"
      ["lekarz"; "wizyta"; "lek"; "tabletki"; "recepta"; "badanie";
       "dentysta"; "szpital"; "zdrowie"; "dieta"; "trening"; "siłownia"]
      [] ].

End Table.

(** [{category, icon, confidence}]. *)
Module Result.
Record t := { category : jsstring; icon : value; confidence : Q }.
End Result.

(** [s.method(...)] for a method of [String.prototype]: [undefined] and
    [null] have no properties, and no other value of [value] has such a
    method, so the call throws unless [s] is a string. *)
Definition this_string (v : value) : completion jsstring :=
  match v with
  | VString s => Normal s
  | _ => Throw TypeError
  end.

Section Program.

Context {U : Unicode}.

(** The body of the keyword loop and of the pattern loop. *)
Definition keyword_step (normalizedText : jsstring) (score : Z)
    (keyword : jsstring) : Z :=
  if includes normalizedText (toLowerCase keyword)
  then (score + 2)%Z else score.

Definition pattern_step (text : jsstring) (score : Z) (pattern : RegExp) : Z :=
  if test pattern text then (score + 3)%Z else score.

Definition category_score (text normalizedText : jsstring)
    (categoryData : CategoryData) : Z :=
  let score := 0%Z in
  let score := fold_left (keyword_step normalizedText)
                 (keywords categoryData) score in
  fold_left (pattern_step text) (patterns categoryData) score.

(** The first loop of [categorize]: the object [scores]. *)
Definition compute_scores (tbl : table) (text : jsstring) : object Z :=
  let normalizedText := trim (toLowerCase text) in
  fold_left
    (fun scores e =>
       assign scores (fst e) (category_score text normalizedText (snd e)))
    (Object_entries tbl) [].

(** The second loop: [(bestCategory, bestScore)]. *)
Definition best_step (best : jsstring * Z) (e : jsstring * Z) : jsstring * Z :=
  if (snd e >? snd best)%Z then (fst e, snd e) else best.

Definition select (scores : object Z) : jsstring * Z :=
  fold_left best_step (Object_entries scores) (js "notatka", 0%Z).

Definition maxPossibleScore : Z := 15.

Definition fallback : Result.t :=
  {| Result.category := js "notatka";
     Result.icon := VString (js "📝");
     Result.confidence := 0%Q |}.

(** Past the guard [text] is a string; [string_of] reads it. *)
Definition string_of (v : value) : jsstring :=
  match v with
  | VString s => s
  | _ => []
  end.

Definition categorize (tbl : table) (text : value) : completion Result.t :=
  if negb (ToBoolean text) || negb (JSString.eqb (typeof text) (js "string"))
  then Normal fallback
  else
    let text := string_of text in
    let scores := compute_scores tbl text in
    let '(bestCategory, bestScore) := select scores in
    let confidence :=
      Qmin (inject_Z bestScore / inject_Z maxPossibleScore)%Q 1%Q in
    match get tbl bestCategory with
    | Own d =>
        Normal {| Result.category := bestCategory;
                  Result.icon := VString (icon d);
                  Result.confidence := confidence |}
    | Inherited =>
        Normal {| Result.category := bestCategory;
                  Result.icon := VUndefined;
                  Result.confidence := confidence |}
    | Undefined => Throw TypeError
    end.

(** [{name, icon}] as a pair. *)
Definition getAllCategories (tbl : table) : list (jsstring * jsstring) :=
  map (fun e => (fst e, icon (snd e))) (Object_entries tbl).

(** [addKeyword] changes the table, so it returns the table after the
    call next to its completion.  The callee
    [this.categories[category].keywords.push] is evaluated before the
    argument [keyword.toLowerCase()]; both failures are [TypeError]s and
    happen before anything is written. *)
Definition push_keyword (d : CategoryData) (k : jsstring) : CategoryData :=
  {| icon := icon d; keywords := keywords d ++ [k]; patterns := patterns d |}.

Definition addKeyword (tbl : table) (category keyword : value)
    : table * completion unit :=
  let key := ToPropertyKey category in
  match get tbl key with
  | Own d =>
      match this_string keyword with
      | Normal k => (put tbl key (push_keyword d (toLowerCase k)), Normal tt)
      | Throw e => (tbl, Throw e)
      end
  | Inherited => (tbl, Throw TypeError)
  | Undefined => (tbl, Normal tt)
  end.

Definition hashtag : RegExp := regexp "g" (seq [lit "#"; plus word]).
Definition mention : RegExp := regexp "g" (seq [lit "@"; plus word]).

Definition push_matches (tags : list jsstring)
    (matches : option (list jsstring)) : list jsstring :=
  match matches with
  | Some ms => tags ++ map slice1 ms
  | None => tags
  end.

Definition extractTags (text : value) : completion (list jsstring) :=
  match this_string text with
  | Throw e => Throw e
  | Normal s =>
      let tags := [] in
      let hashtagMatches := match_global s hashtag in
      let tags := push_matches tags hashtagMatches in
      let mentionMatches := match_global s mention in
      let tags := push_matches tags mentionMatches in
      Normal (new_Set tags)
  end.

End Program.

End Categorizer.

(* ===================================================================== *)
(** ** The specification's words *)
(* ===================================================================== *)

Module Spec.

Import JS RegExp Categorizer.

(** The longest run of word characters a string starts with, and what
    follows it. *)
Fixpoint word_run (s : jsstring) : jsstring :=
  match s with
  | c :: s' => if is_word c then c :: word_run s' else []
  | [] => []
  end.

Fixpoint after_run (s : jsstring) : jsstring :=
  match s with
  | c :: s' => if is_word c then after_run s' else s
  | [] => []
  end.

(** A matcher is local when it only asks its continuation about states
    that are not longer than the state it starts from. *)
Definition local (mr : continuation -> state -> option state) : Prop :=
  forall (k k' : continuation) (x : state),
    (forall y, length (rest y) <= length (rest x) -> k y = k' y) ->
    mr k x = mr k' x.

(** [/c\w+/g] for a marker [c]: the shape of both tag patterns. *)
Definition marker_re (c : code_unit) : RegExp :=
  regexp "g" (Seq (Char c) (plus word)).

Definition hash : code_unit := 35%N.
Definition at_sign : code_unit := 64%N.

(** The unit before the position where the run of word characters that
    [s] starts with ends ([p] when the run is empty). *)
Fixpoint run_prev (p : option code_unit) (s : jsstring) : option code_unit :=
  match s with
  | c :: s' => if is_word c then run_prev (Some c) s' else p
  | [] => p
  end.

(** The tags a marker introduces, in the order of the text: at every
    marker followed by a word character, the word that follows. *)
Fixpoint tags_of (marker : code_unit) (s : jsstring) : list jsstring :=
  match s with
  | [] => []
  | c :: s' =>
      match word_run s' with
      | _ :: _ => if (c =? marker)%N then word_run s' :: tags_of marker s'
                  else tags_of marker s'
      | [] => tags_of marker s'
      end
  end.

(** [t] is the word of a marker-plus-word-characters token of [text]:
    the marker, then the non-empty word [t], then the end of the text or
    a character that is not a word character. *)
Definition is_tag (marker : code_unit) (text t : jsstring) : Prop :=
  exists pre post,
    text = pre ++ marker :: t ++ post
    /\ t <> []
    /\ forallb is_word t = true
    /\ match post with [] => True | c :: _ => is_word c = false end.

(** A list without its repetitions, every element at the place of its
    first occurrence. *)
Fixpoint first_occurrences (l : list jsstring) : list jsstring :=
  match l with
  | [] => []
  | x :: l' =>
      x :: filter (fun y => negb (JSString.eqb x y)) (first_occurrences l')
  end.

Section Score.

Context {U : Unicode}.

(** The score as the specification counts it: 2 for every keyword entry
    that is a substring of the lower-cased, trimmed text, 3 for every
    pattern that matches the original text. *)
Definition count {A : Type} (f : A -> bool) (l : list A) : Z :=
  Z.of_nat (length (filter f l)).

Definition score_of (text : jsstring) (d : CategoryData) : Z :=
  (2 * count (fun keyword => includes (trim (toLowerCase text)) keyword)
         (keywords d)
   + 3 * count (fun pattern => test pattern text) (patterns d))%Z.

Definition scores_of (tbl : table) (text : jsstring) : list (jsstring * Z) :=
  map (fun e => (fst e, score_of text (snd e))) tbl.

(** The table after a sequence of [addKeyword] calls on the built-in
    one, whatever the arguments and whether or not a call throws. *)
Definition after (calls : list (value * value)) : table :=
  fold_left (fun tbl c => fst (addKeyword tbl (fst c) (snd c))) calls
    categories.

(** A table whose stored keywords are all in lower case. *)
Definition lowered (tbl : table) : Prop :=
  Forall (fun e => Forall (fun k => toLowerCase k = k) (keywords (snd e))) tbl.

End Score.

(** Keys that [Object.entries] lists in creation order and that an
    assignment creates: distinct, none an array index, none
    [__proto__]. *)
Fixpoint distinct (l : list jsstring) : bool :=
  match l with
  | [] => true
  | x :: l' => negb (existsb (JSString.eqb x) l') && distinct l'
  end.

Definition plain_key (k : jsstring) : bool :=
  negb (is_index k) && negb (JSString.eqb k (js "__proto__")).

Definition plain_keys (l : list jsstring) : bool :=
  distinct l && forallb plain_key l.

(** What [addKeyword] never changes: the names in their order, the
    icons and the patterns. *)
Definition shape (tbl : table) : list (jsstring * jsstring * list RegExp) :=
  map (fun e => (fst e, icon (snd e), patterns (snd e))) tbl.

End Spec.


(* ===================================================================== *)
(** ** JSON values *)
(* ===================================================================== *)

Module JSON.

Import JS.

(** What [JSON.parse] returns: numbers by their exact value, objects as
    their properties in creation order. *)
#[warnings="-register-all"]
Inductive json :=
| JNull
| JBool (b : bool)
| JNumber (q : Q)
| JString (s : jsstring)
| JArray (elements : list json)
| JObject (properties : object json).

(** What [JSON.stringify] writes for a property holding [v], read back:
    an [undefined] property is left out, a number that is not finite is
    written as [null]. *)
Definition stored (v : value) : option json :=
  match v with
  | VUndefined => None
  | VNull => Some JNull
  | VBoolean b => Some (JBool b)
  | VNumber (Int z) => Some (JNumber (inject_Z z))
  | VNumber _ => Some JNull
  | VString s => Some (JString s)
  | VObject => Some (JObject [])
  end.

(** [n.key] for a key that no prototype defines ([id], [category]):
    [null] has no properties, an object gives its own property, every
    other value [undefined] ([None]). *)
Definition member (n : json) (key : jsstring) : completion (option json) :=
  match n with
  | JNull => Throw TypeError
  | JObject o => Normal (own o key)
  | _ => Normal None
  end.

(** [a === v] for a property value [a] read from parsed JSON and a
    value [v] of the caller: primitives are compared by value, and an
    object or array just parsed is no value the caller holds. *)
Definition strict_equals (a : option json) (v : value) : bool :=
  match a, v with
  | None, VUndefined => true
  | Some JNull, VNull => true
  | Some (JBool b), VBoolean b' => Bool.eqb b b'
  | Some (JNumber q), VNumber (Int z) => Qeq_bool q (inject_Z z)
  | Some (JString s), VString s' => JSString.eqb s s'
  | _, _ => false
  end.

(** [SameValueZero] on two property values read from different places
    of parsed JSON: two objects or arrays there are never the same. *)
Definition same_value_zero (a b : option json) : bool :=
  match a, b with
  | None, None => true
  | Some JNull, Some JNull => true
  | Some (JBool x), Some (JBool y) => Bool.eqb x y
  | Some (JNumber x), Some (JNumber y) => Qeq_bool x y
  | Some (JString x), Some (JString y) => JSString.eqb x y
  | _, _ => false
  end.

(** [delete o[key]], for a property that [JSON.stringify] leaves out. *)
Fixpoint remove (A : Type) (o : object A) (key : jsstring) : object A :=
  match o with
  | [] => []
  | (k, a) :: o' =>
      if JSString.eqb k key then o' else (k, a) :: remove o' key
  end.

(** [o.key = v] seen through [JSON.stringify]. *)
Definition store_property (o : object json) (key : jsstring) (v : value)
    : object json :=
  match stored v with
  | Some j => put o key j
  | None => remove o key
  end.

End JSON.

(* ===================================================================== *)
(** ** The application: [UI] helpers, [Storage], [App.saveThought] *)
(* ===================================================================== *)

Module UI.

Import JS.

(** [s.slice(start, end)] for integer arguments. *)
Definition slice (s : jsstring) (start end_ : Z) : jsstring :=
  let len := Z.of_nat (length s) in
  let from := if (start <? 0)%Z then Z.max (len + start) 0 else Z.min start len in
  let to := if (end_ <? 0)%Z then Z.max (len + end_) 0 else Z.min end_ len in
  firstn (Z.to_nat (Z.max (to - from) 0)) (skipn (Z.to_nat from) s).

(** [truncateText], for a string and an integer limit (the caller
    passes a note's content and 200). *)
Definition truncateText (text : jsstring) (maxLength : Z) : jsstring :=
  if (Z.of_nat (length text) <=? maxLength)%Z then text
  else trim (slice text 0 maxLength) ++ js "...".

Section FormatDate.

(** [date.toLocaleDateString('pl-PL', ...)], which depends on the time
    zone and the locale data of the host; [now] decides whether the
    year is shown. *)
Variable toLocaleDateString : Z -> Z -> jsstring.

(** [formatDate], with the current time [now] of [new Date()] and both
    dates as time values, in milliseconds.  Below 2^53 the difference
    is exact and each quotient lies a divisor's multiple away from the
    next integer, so [Math.floor] of the rounded quotient is the
    integer quotient; beyond, rounding does not change the branch. *)
Definition formatDate (now date : Z) : jsstring :=
  let diff := (now - date)%Z in
  let minutes := (diff / 60000)%Z in
  let hours := (diff / 3600000)%Z in
  let days := (diff / 86400000)%Z in
  if (minutes <? 1)%Z then js "przed chwilą"
  else if (minutes <? 60)%Z then Number_toString (Int minutes) ++ js " min temu"
  else if (hours <? 24)%Z then Number_toString (Int hours) ++ js " godz. temu"
  else if (days <? 7)%Z then Number_toString (Int days) ++ js " dni temu"
  else toLocaleDateString date now.

End FormatDate.

End UI.

Module Storage.

Import JS JSON Categorizer.

(** The item of [localStorage] under [KEY], by what [getAll] makes of
    it: no item, the JSON text of a value, or a text that [JSON.parse]
    rejects (the empty string, which [getAll] skips, counts as one).
    The text that [JSON.stringify] writes for a value of [json] parses
    back to that value. *)
Inductive item :=
| Absent
| Text (v : json)
| Garbage.

Definition getAll (ls : item) : json :=
  match ls with
  | Absent => JArray []
  | Text v => v
  | Garbage => JArray []
  end.

Section Operations.

Context {U : Unicode}.

(** Whether [localStorage.setItem] takes the text of a value or throws
    (the quota): the host decides. *)
Variable accepts : json -> bool.

Definition save (ls : item) (notes : json) : item * bool :=
  if accepts notes then (Text notes, true) else (ls, false).

(** Array methods called on what [getAll] returned: [null] has no
    properties and no other value but an array has the method, so the
    call throws unless the value is an array. *)
Definition this_array (v : json) : completion (list json) :=
  match v with
  | JArray l => Normal l
  | _ => Throw TypeError
  end.

Definition add (ls : item) (note : json) : item * completion bool :=
  match this_array (getAll ls) with
  | Throw e => (ls, Throw e)
  | Normal notes =>
      let notes := note :: notes in
      let (ls', ok) := save ls (JArray notes) in
      (ls', Normal ok)
  end.

(** [notes.findIndex(n => n.id === id)]: [None] is -1. *)
Fixpoint findIndex (id : value) (notes : list json) : completion (option nat) :=
  match notes with
  | [] => Normal None
  | n :: notes' =>
      match member n (js "id") with
      | Throw e => Throw e
      | Normal a =>
          if strict_equals a id then Normal (Some O)
          else match findIndex id notes' with
               | Normal (Some i) => Normal (Some (S i))
               | r => r
               end
      end
  end.

Fixpoint replace (notes : list json) (index : nat) (n : json) : list json :=
  match notes, index with
  | [], _ => []
  | _ :: notes', O => n :: notes'
  | m :: notes', S i => m :: replace notes' i n
  end.

(** [update]: [now] is what [Date.now()] returns.  The four assignments
    go to [notes[index]], which is then written out: on an object they
    set its properties; on an array they set properties that
    [JSON.stringify] does not write; on a primitive the first one
    throws (the file is in strict mode). *)
Definition update (tbl : table) (now : Z) (ls : item)
    (id newContent : value) : item * completion bool :=
  match this_array (getAll ls) with
  | Throw e => (ls, Throw e)
  | Normal notes =>
      match findIndex id notes with
      | Throw e => (ls, Throw e)
      | Normal None => (ls, Normal false)
      | Normal (Some index) =>
          match nth_error notes index with
          | Some (JObject o) =>
              let o := store_property o (js "content") newContent in
              let o := store_property o (js "updatedAt") (VNumber (Int now)) in
              match categorize tbl newContent with
              | Throw e => (ls, Throw e)
              | Normal categorization =>
                  let o := store_property o (js "category")
                             (VString (Result.category categorization)) in
                  let o := store_property o (js "categoryIcon")
                             (Result.icon categorization) in
                  let (ls', ok) := save ls (JArray (replace notes index (JObject o))) in
                  (ls', Normal ok)
              end
          | Some (JArray _) =>
              match categorize tbl newContent with
              | Throw e => (ls, Throw e)
              | Normal _ =>
                  let (ls', ok) := save ls (JArray notes) in
                  (ls', Normal ok)
              end
          | _ => (ls, Throw TypeError)
          end
      end
  end.

(** [notes.filter(n => n.id !== id)]. *)
Fixpoint filter_out (id : value) (notes : list json) : completion (list json) :=
  match notes with
  | [] => Normal []
  | n :: notes' =>
      match member n (js "id") with
      | Throw e => Throw e
      | Normal a =>
          match filter_out id notes' with
          | Throw e => Throw e
          | Normal filtered =>
              Normal (if strict_equals a id then filtered else n :: filtered)
          end
      end
  end.

Definition delete (ls : item) (id : value) : item * completion bool :=
  match this_array (getAll ls) with
  | Throw e => (ls, Throw e)
  | Normal notes =>
      match filter_out id notes with
      | Throw e => (ls, Throw e)
      | Normal filtered =>
          let (ls', ok) := save ls (JArray filtered) in
          (ls', Normal ok)
      end
  end.

(** [notes.forEach(n => categories.add(n.category))] on a [Set]. *)
Definition Set_add (s : list (option json)) (x : option json)
    : list (option json) :=
  if existsb (same_value_zero x) s then s else s ++ [x].

Fixpoint forEach_add (notes : list json) (categories : list (option json))
    : completion (list (option json)) :=
  match notes with
  | [] => Normal categories
  | n :: notes' =>
      match member n (js "category") with
      | Throw e => Throw e
      | Normal c => forEach_add notes' (Set_add categories c)
      end
  end.

Definition getCategories (ls : item) : completion (list (option json)) :=
  match this_array (getAll ls) with
  | Throw e => Throw e
  | Normal notes => forEach_add notes []
  end.

End Operations.

End Storage.

Module App.

Import JS JSON Categorizer Storage.

(** What [saveThought] leaves behind: the store, the message it hands
    to [UI.showFeedback], and whether it calls [UI.clearInput]. *)
Record outcome := {
  store : item;
  feedback : jsstring;
  cleared : bool
}.

Section SaveThought.

Context {U : Unicode}.
Variable accepts : json -> bool.

(** The object literal of [saveThought], as [JSON.stringify] writes it. *)
Definition note (id content : jsstring) (categorization : Result.t)
    (tags : list jsstring) (createdAt updatedAt : Z) : json :=
  let o := [] in
  let o := store_property o (js "id") (VString id) in
  let o := store_property o (js "content") (VString content) in
  let o := store_property o (js "category")
             (VString (Result.category categorization)) in
  let o := store_property o (js "categoryIcon") (Result.icon categorization) in
  let o := put o (js "confidence") (JNumber (Result.confidence categorization)) in
  let o := put o (js "tags") (JArray (map JString tags)) in
  let o := store_property o (js "createdAt") (VNumber (Int createdAt)) in
  let o := store_property o (js "updatedAt") (VNumber (Int updatedAt)) in
  JObject o.

(** [saveThought]: [value] is [UI.elements.thoughtInput.value], [id]
    what [generateId()] returns, [createdAt] and [updatedAt] what the
    two calls of [Date.now()] return. *)
Definition saveThought (tbl : table) (ls : item) (value : jsstring)
    (id : jsstring) (createdAt updatedAt : Z) : completion outcome :=
  let content := trim value in
  if negb (ToBoolean (VString content))
  then Normal {| store := ls;
                 feedback := js "Wpisz coś najpierw";
                 cleared := false |}
  else
    match categorize tbl (VString content) with
    | Throw e => Throw e
    | Normal categorization =>
        match extractTags (VString content) with
        | Throw e => Throw e
        | Normal tags =>
            let note := note id content categorization tags
                          createdAt updatedAt in
            match add accepts ls note with
            | (_, Throw e) => Throw e
            | (ls', Normal true) =>
                Normal {| store := ls';
                          feedback :=
                            js "Zapisano: " ++ Result.category categorization;
                          cleared := true |}
            | (ls', Normal false) =>
                Normal {| store := ls';
                          feedback := js "Błąd zapisu";
                          cleared := false |}
            end
        end
    end.

End SaveThought.

End App.

(* ===================================================================== *)
(** ** Words to state properties of the application *)
(* ===================================================================== *)

Module AppSpec.

Import JS JSON Storage.

(** Whether a stored note is one that [n.id === id] selects, for the
    notes on which reading [n.id] does not throw. *)
Definition has_id (id : value) (n : json) : bool :=
  match n with
  | JObject o => strict_equals (own o (js "id")) id
  | _ => strict_equals None id
  end.

(** A store as the application writes it: an array of objects. *)
Definition is_object (n : json) : Prop := exists o, n = JObject o.

Definition healthy (ls : item) : Prop :=
  exists notes, getAll ls = JArray notes /\ Forall is_object notes.

(** The four properties that [update] assigns. *)
Definition edited_keys : list jsstring :=
  [js "content"; js "updatedAt"; js "category"; js "categoryIcon"].

(** A category that is a string, as [n.category] reads it. *)
Definition some_string (c : jsstring) : option json := Some (JString c).

(** A string that [trim] leaves as it is. *)
Definition trimmed (s : jsstring) : Prop := trim s = s.

End AppSpec.

(* ===================================================================== *)
(** ** Sample data *)
(* ===================================================================== *)

Module Sample.

Import JS JSON Storage Categorizer.

(** A host that takes every text. *)
Definition roomy (v : json) : bool := true.

Definition first_note : object json :=
  [(js "id", JString (js "a1")); (js "content", JString (js "raport"));
   (js "category", JString (js "praca"))].

Definition second_note : object json :=
  [(js "id", JString (js "b2")); (js "content", JString (js "mleko"));
   (js "category", JString (js "zakupy"))].

Definition two_notes : item :=
  Text (JArray [JObject first_note; JObject second_note]).

(** A table of one category. *)
Definition one_category : CategoryData :=
  {| icon := js "i"; keywords := [js "x"]; patterns := [] |}.

Definition small_table : table := [(js "a", one_category)].

End Sample.
(* ===================================================================== *)
(** ** Strings, objects and sets *)
(* ===================================================================== *)

Import JS RegExp Categorizer Spec.

Lemma eqb_eq (a b : jsstring) : JSString.eqb a b = true <-> a = b.
Proof.
  unfold JSString.eqb. destruct (jsstring_eq_dec a b); split; congruence.
Qed.

Lemma eqb_neq (a b : jsstring) : JSString.eqb a b = false <-> a <> b.
Proof.
  unfold JSString.eqb. destruct (jsstring_eq_dec a b); split; congruence.
Qed.

Lemma eqb_refl (a : jsstring) : JSString.eqb a a = true.
Proof. now apply eqb_eq. Qed.

Lemma eqb_sym (a b : jsstring) : JSString.eqb a b = JSString.eqb b a.
Proof.
  destruct (JSString.eqb b a) eqn:E.
  - apply eqb_eq in E. subst. apply eqb_refl.
  - apply eqb_neq. apply eqb_neq in E. congruence.
Qed.

Lemma existsb_eqb_In (x : jsstring) (l : list jsstring) :
  existsb (JSString.eqb x) l = true <-> In x l.
Proof.
  rewrite existsb_exists. split.
  - intros [y [Hy E]]. apply eqb_eq in E. now subst.
  - intros H. exists x. split; [assumption | apply eqb_refl].
Qed.

Lemma Set_has_In (s : list jsstring) (x : jsstring) :
  Set_has s x = true <-> In x s.
Proof. apply existsb_eqb_In. Qed.

(** *** [new Set] keeps first occurrences *)

Lemma filter_twice {A : Type} (f g : A -> bool) (l : list A) :
  filter f (filter g l) = filter (fun x => g x && f x) l.
Proof.
  induction l as [|a l IH]; simpl; [reflexivity|].
  destruct (g a); simpl; [destruct (f a)|]; now rewrite IH.
Qed.

Lemma first_occurrences_In (l : list jsstring) (x : jsstring) :
  In x (first_occurrences l) <-> In x l.
Proof.
  induction l as [|a l IH]; simpl; [tauto|].
  rewrite filter_In, IH. destruct (jsstring_eq_dec a x) as [->|Hne].
  - tauto.
  - apply eqb_neq in Hne. rewrite Hne. simpl. tauto.
Qed.

Lemma first_occurrences_NoDup (l : list jsstring) :
  NoDup (first_occurrences l).
Proof.
  induction l as [|a l IH]; simpl; constructor.
  - rewrite filter_In, eqb_refl. simpl. intros [_ H]. discriminate.
  - now apply NoDup_filter.
Qed.

(** Folding [Set_add] over [l] from a set [s] appends to [s] the first
    occurrences of [l] that [s] does not hold yet. *)
Lemma fold_Set_add (l s : list jsstring) :
  fold_left Set_add l s
  = s ++ filter (fun y => negb (Set_has s y)) (first_occurrences l).
Proof.
  revert s. induction l as [|a l IH]; intros s; simpl.
  - now rewrite app_nil_r.
  - rewrite IH. unfold Set_add at 1 2.
    destruct (Set_has s a) eqn:Ha; simpl.
    + f_equal. rewrite filter_twice. apply filter_ext. intros y.
      destruct (JSString.eqb a y) eqn:E; simpl; [|reflexivity].
      apply eqb_eq in E. subst. now rewrite Ha.
    + rewrite <- app_assoc. simpl. f_equal. f_equal.
      rewrite filter_twice. apply filter_ext. intros y.
      unfold Set_has. rewrite existsb_app. simpl.
      now rewrite orb_false_r, negb_orb, (eqb_sym y a), andb_comm.
Qed.

Lemma new_Set_first_occurrences (l : list jsstring) :
  new_Set l = first_occurrences l.
Proof.
  unfold new_Set. rewrite fold_Set_add. simpl. apply filter_true.
Qed.

(** *** [includes] is the substring test *)

Lemma startsWith_prefix (s k : jsstring) :
  startsWith s k = true <-> exists post, s = k ++ post.
Proof.
  revert s. induction k as [|c k IH]; intros s; simpl.
  - split; [intros _; now exists s | now destruct s].
  - destruct s as [|d s]; simpl.
    + split; [discriminate | intros [post H]; discriminate].
    + rewrite andb_true_iff, N.eqb_eq, IH. split.
      * intros [-> [post ->]]. now exists post.
      * intros [post [= -> ->]]. split; [reflexivity | now exists post].
Qed.

Lemma includes_substring (s k : jsstring) :
  includes s k = true <-> exists pre post, s = pre ++ k ++ post.
Proof.
  induction s as [|d s IH].
  - cbn [includes]. rewrite orb_false_r, startsWith_prefix. split.
    + intros [post H]. now exists [], post.
    + intros [pre [post H]]. destruct pre; [now exists post|discriminate].
  - cbn [includes]. rewrite orb_true_iff, startsWith_prefix, IH. split.
    + intros [[post H]|[pre [post H]]].
      * now exists [], post.
      * exists (d :: pre), post. simpl. now rewrite H.
    + intros [[|d' pre] [post H]].
      * left. now exists post.
      * right. injection H as _ H. now exists pre, post.
Qed.

(* ===================================================================== *)
(** ** The matcher does not depend on its fuel *)
(* ===================================================================== *)

Section Fuel.

Context {U : Unicode}.
Variables (ic ml : bool).

Lemma RepeatMatcher_local (mr : continuation -> state -> option state) :
  local mr ->
  forall (fuel mn : nat) (mx : option nat), local (fun k => RepeatMatcher mr k fuel mn mx).
Proof.
  intros Hmr. induction fuel as [|fuel IH]; intros mn mx k k' x Hk;
    [reflexivity|].
  cbn [RepeatMatcher].
  assert (Hd : mr (fun y : state =>
                     if (mn =? 0)%nat && (length (rest y) =? length (rest x))%nat
                     then None
                     else RepeatMatcher mr k fuel (pred mn) (option_map pred mx) y) x
               = mr (fun y : state =>
                       if (mn =? 0)%nat && (length (rest y) =? length (rest x))%nat
                       then None
                       else RepeatMatcher mr k' fuel (pred mn) (option_map pred mx) y) x).
  { apply Hmr. intros y Hy.
    destruct ((mn =? 0)%nat && (length (rest y) =? length (rest x))%nat);
      [reflexivity|].
    apply IH. intros z Hz. apply Hk. lia. }
  rewrite Hd, (Hk x) by lia. reflexivity.
Qed.

Lemma m_local (r : regex) : local (m ic ml r).
Proof.
  induction r as [|c|inv items|r1 IH1 r2 IH2|r1 IH1 r2 IH2|mn mx r IH| |];
    intros k k' x Hk; cbn [m].
  - now apply Hk.
  - destruct (rest x) as [|ch s'] eqn:E; [reflexivity|].
    destruct (canon ic c =? canon ic ch)%N; [|reflexivity].
    apply Hk. simpl. lia.
  - destruct (rest x) as [|ch s'] eqn:E; [reflexivity|].
    destruct (set_matches ic inv items ch); [|reflexivity].
    apply Hk. simpl. lia.
  - apply IH1. intros y Hy. apply IH2. intros z Hz. apply Hk. lia.
  - rewrite (IH1 k k' x Hk), (IH2 k k' x Hk). reflexivity.
  - now apply RepeatMatcher_local.
  - destruct (at_line_start ml x); [now apply Hk | reflexivity].
  - destruct (at_line_end ml x); [now apply Hk | reflexivity].
Qed.

(** Any fuel above [min + length (rest x)] gives the same result: the
    fuel [m] passes is enough, and no match is lost to it. *)
Lemma RepeatMatcher_fuel (mr : continuation -> state -> option state)
    (k : continuation) :
  local mr ->
  forall (n fuel fuel' mn : nat) (mx : option nat) (x : state),
    mn + length (rest x) <= n ->
    n < fuel -> n < fuel' ->
    RepeatMatcher mr k fuel mn mx x = RepeatMatcher mr k fuel' mn mx x.
Proof.
  intros Hmr. induction n as [|n IH]; intros fuel fuel' mn mx x Hn Hf Hf';
    (destruct fuel as [|fuel]; [lia|]); (destruct fuel' as [|fuel']; [lia|]);
    cbn [RepeatMatcher].
  - assert (Hd : forall g g' : state -> option state,
               mr (fun y : state =>
                     if (mn =? 0)%nat && (length (rest y) =? length (rest x))%nat
                     then None else g y) x
               = mr (fun y : state =>
                       if (mn =? 0)%nat && (length (rest y) =? length (rest x))%nat
                       then None else g' y) x).
    { intros g g'. apply Hmr. intros y Hy.
      replace mn with 0 by lia.
      replace (length (rest y)) with 0 by lia.
      replace (length (rest x)) with 0 by lia. reflexivity. }
    now rewrite (Hd _ (fun y => RepeatMatcher mr k fuel' (pred mn)
                                  (option_map pred mx) y)).
  - assert (Hd : mr (fun y : state =>
                       if (mn =? 0)%nat && (length (rest y) =? length (rest x))%nat
                       then None
                       else RepeatMatcher mr k fuel (pred mn) (option_map pred mx) y) x
                 = mr (fun y : state =>
                         if (mn =? 0)%nat && (length (rest y) =? length (rest x))%nat
                         then None
                         else RepeatMatcher mr k fuel' (pred mn) (option_map pred mx) y) x).
    { apply Hmr. intros y Hy.
      destruct (mn =? 0)%nat eqn:Emn;
        [destruct (length (rest y) =? length (rest x))%nat eqn:Elen|];
        cbn [andb]; [reflexivity| |].
      - apply Nat.eqb_eq in Emn. apply Nat.eqb_neq in Elen.
        apply IH; lia.
      - apply Nat.eqb_neq in Emn. apply IH; lia. }
    now rewrite Hd.
Qed.

Corollary Repeat_fuel (r : regex) (mn : nat) (mx : option nat)
    (k : continuation) (x : state) (fuel : nat) :
  mn + length (rest x) < fuel ->
  m ic ml (Repeat mn mx r) k x = RepeatMatcher (m ic ml r) k fuel mn mx x.
Proof.
  intros H. cbn [m].
  apply RepeatMatcher_fuel with (n := mn + length (rest x));
    [apply m_local | lia | lia | exact H].
Qed.

End Fuel.

(* ===================================================================== *)
(** ** The two marker patterns *)
(* ===================================================================== *)

Section Markers.

Context {U : Unicode}.

Lemma run_split (s : jsstring) : s = word_run s ++ after_run s.
Proof.
  induction s as [|c s IH]; simpl; [reflexivity|].
  destruct (is_word c); simpl; [now f_equal | reflexivity].
Qed.

Lemma run_length (s : jsstring) :
  length s = length (word_run s) + length (after_run s).
Proof. rewrite (run_split s) at 1. apply length_app. Qed.

Lemma after_run_length (s : jsstring) : length (after_run s) <= length s.
Proof. rewrite (run_length s). lia. Qed.

Lemma firstn_run (s : jsstring) : firstn (length (word_run s)) s = word_run s.
Proof.
  induction s as [|c s IH]; simpl; [reflexivity|].
  destruct (is_word c); simpl; [now rewrite IH | reflexivity].
Qed.

Lemma word_run_all (s : jsstring) : forallb is_word (word_run s) = true.
Proof.
  induction s as [|c s IH]; simpl; [reflexivity|].
  destruct (is_word c) eqn:E; simpl; [now rewrite E | reflexivity].
Qed.

Lemma after_run_head (s : jsstring) :
  match after_run s with [] => True | c :: _ => is_word c = false end.
Proof.
  induction s as [|c s IH]; simpl; [exact I|].
  destruct (is_word c) eqn:E; [exact IH | exact E].
Qed.

(** A run of word characters followed by a boundary is the whole run. *)
Lemma word_run_app (t post : jsstring) :
  forallb is_word t = true ->
  match post with [] => True | c :: _ => is_word c = false end ->
  word_run (t ++ post) = t.
Proof.
  intros Ht Hpost. induction t as [|c t IH]; simpl in *.
  - destruct post as [|c post]; simpl; [reflexivity | now rewrite Hpost].
  - apply andb_prop in Ht. destruct Ht as [Hc Ht]. rewrite Hc.
    now rewrite IH.
Qed.

(** The equations of the matcher that the marker patterns use. *)
Lemma m_word (ml : bool) (k : continuation) (p : option code_unit)
    (s : jsstring) :
  m false ml word k {| prev := p; rest := s |}
  = match s with
    | c :: s' =>
        if is_word c then k {| prev := Some c; rest := s' |} else None
    | [] => None
    end.
Proof.
  destruct s as [|c s']; [reflexivity|].
  simpl. unfold set_matches. simpl. now rewrite orb_false_r.
Qed.

Lemma RepeatMatcher_plus (mr : continuation -> state -> option state)
    (k : continuation) (fuel : nat) (x : state) :
  RepeatMatcher mr k (S fuel) 1 None x
  = mr (fun y => RepeatMatcher mr k fuel 0 None y) x.
Proof. reflexivity. Qed.

Lemma RepeatMatcher_star (mr : continuation -> state -> option state)
    (k : continuation) (fuel : nat) (x : state) :
  RepeatMatcher mr k (S fuel) 0 None x
  = match mr (fun y => if (length (rest y) =? length (rest x))%nat
                       then None
                       else RepeatMatcher mr k fuel 0 None y) x with
    | Some z => Some z
    | None => k x
    end.
Proof. reflexivity. Qed.

(** The greedy loop [\w*] reads the whole run of word characters. *)
Lemma repeat_word (ml : bool) (s : jsstring) :
  forall (fuel : nat) (p : option code_unit),
    length s < fuel ->
    RepeatMatcher (m false ml word) (fun y => Some y) fuel 0 None
      {| prev := p; rest := s |}
    = Some {| prev := run_prev p s; rest := after_run s |}.
Proof.
  induction s as [|c s IH]; intros fuel p Hfuel;
    (destruct fuel as [|fuel]; [simpl in Hfuel; lia|]);
    rewrite RepeatMatcher_star, m_word.
  - reflexivity.
  - cbn [rest run_prev after_run]. destruct (is_word c); [|reflexivity].
    replace (length s =? length (c :: s))%nat with false
      by (symmetry; apply Nat.eqb_neq; simpl; lia).
    rewrite IH by (simpl in Hfuel; lia). reflexivity.
Qed.

(** One run of [/c\w+/] at a position. *)
Lemma marker_at (mk : code_unit) (p : option code_unit) (s : jsstring) :
  m false false (Seq (Char mk) (plus word)) (fun y => Some y)
    {| prev := p; rest := s |}
  = match s with
    | c :: s' =>
        match word_run s' with
        | _ :: _ =>
            if (mk =? c)%N
            then Some {| prev := run_prev (Some c) s'; rest := after_run s' |}
            else None
        | [] => None
        end
    | [] => None
    end.
Proof.
  destruct s as [|c s']; [reflexivity|].
  cbn [m rest canon plus]. destruct (mk =? c)%N.
  - rewrite Nat.add_1_r, RepeatMatcher_plus, m_word.
    destruct s' as [|w s'']; [reflexivity|].
    cbn [word_run run_prev after_run]. destruct (is_word w); [|reflexivity].
    apply repeat_word. simpl. lia.
  - now destruct (word_run s').
Qed.

(** Word characters are not markers, so no tag starts inside a run. *)
Lemma tags_of_after_run (mk : code_unit) (s : jsstring) :
  is_word mk = false -> tags_of mk (after_run s) = tags_of mk s.
Proof.
  intros Hmk. induction s as [|c s IH]; [reflexivity|].
  simpl. destruct (is_word c) eqn:Hc; [|reflexivity].
  rewrite IH. destruct (c =? mk)%N eqn:E.
  - apply N.eqb_eq in E. congruence.
  - now destruct (word_run s).
Qed.

(** The leftmost match of [/c\w+/] from a position is the first tag. *)
Lemma marker_exec (mk : code_unit) (s : jsstring) :
  is_word mk = false ->
  forall p : option code_unit,
    match exec_from (marker_re mk) p s with
    | None => tags_of mk s = []
    | Some (str, y) =>
        exists w, str = mk :: w /\ w <> []
                  /\ tags_of mk s = w :: tags_of mk (rest y)
                  /\ length (rest y) < length s
    end.
Proof.
  intros Hmk. induction s as [|c s IH]; intros p.
  - reflexivity.
  - cbn [exec_from marker_re regexp source ignoreCase multiline].
    change (includes (js "g") (js "i")) with false.
    change (includes (js "g") (js "m")) with false.
    rewrite marker_at.
    assert (Hskip :
      match exec_from (marker_re mk) (Some c) s with
      | None => tags_of mk s = []
      | Some (str, y) =>
          exists w, str = mk :: w /\ w <> []
                    /\ tags_of mk s = w :: tags_of mk (rest y)
                    /\ length (rest y) < length s
      end ->
      (c =? mk)%N = false \/ word_run s = [] ->
      match exec_from (marker_re mk) (Some c) s with
      | None => tags_of mk (c :: s) = []
      | Some (str, y) =>
          exists w, str = mk :: w /\ w <> []
                    /\ tags_of mk (c :: s) = w :: tags_of mk (rest y)
                    /\ length (rest y) < length (c :: s)
      end).
    { intros H Hno.
      assert (E : tags_of mk (c :: s) = tags_of mk s).
      { simpl. destruct Hno as [Hno|Hno]; rewrite Hno; [|reflexivity].
        now destruct (word_run s). }
      rewrite E. destruct (exec_from (marker_re mk) (Some c) s) as [[str y]|].
      - destruct H as [w [H1 [H2 [H3 H4]]]]. exists w.
        repeat split; try assumption. simpl. lia.
      - assumption. }
    specialize (IH (Some c)).
    destruct (word_run s) as [|w ws] eqn:Hrun.
    + apply Hskip; [exact IH | now right].
    + destruct (mk =? c)%N eqn:E.
      * apply N.eqb_eq in E. subst c. exists (w :: ws).
        cbn [rest]. split; [|split; [discriminate|split]].
        -- pose proof (run_length s) as Hlen.
           replace (length (mk :: s) - length (after_run s))
             with (S (length (word_run s))) by (cbn [length]; lia).
           cbn [firstn]. now rewrite firstn_run, Hrun.
        -- simpl. rewrite Hrun, N.eqb_refl.
           now rewrite tags_of_after_run.
        -- pose proof (after_run_length s). simpl. lia.
      * apply Hskip; [exact IH | left]. now rewrite N.eqb_sym.
Qed.

(** The global match lists the tokens, markers included, in order. *)
Lemma marker_match_loop (mk : code_unit) :
  is_word mk = false ->
  forall (fuel : nat) (s : jsstring) (p : option code_unit),
    length s < fuel ->
    map slice1 (match_loop fuel (marker_re mk) p s) = tags_of mk s.
Proof.
  intros Hmk. induction fuel as [|fuel IH]; intros s p Hfuel; [lia|].
  simpl. pose proof (@marker_exec mk s Hmk p) as H.
  destruct (exec_from (marker_re mk) p s) as [[str y]|].
  - destruct H as [w [-> [Hw [Ht Hlen]]]]. simpl.
    rewrite IH by lia. now rewrite Ht.
  - now rewrite H.
Qed.

End Markers.

(* ===================================================================== *)
(** ** [extractTags] *)
(* ===================================================================== *)

Section ExtractTags.

Context {U : Unicode}.

Lemma push_matches_global (tags l : list jsstring) :
  push_matches tags (match l with [] => None | a :: b => Some (a :: b) end)
  = tags ++ map slice1 l.
Proof. destruct l; simpl; [now rewrite app_nil_r | reflexivity]. Qed.

(** On a string, [extractTags] returns the tags of both markers, the
    hashtags first, without repetitions. *)
Lemma extractTags_string (text : jsstring) :
  extractTags (VString text)
  = Normal (first_occurrences (tags_of hash text ++ tags_of at_sign text)).
Proof.
  unfold extractTags, this_string, match_global.
  change hashtag with (marker_re hash).
  change mention with (marker_re at_sign).
  rewrite !push_matches_global, !marker_match_loop by (reflexivity || lia).
  now rewrite new_Set_first_occurrences.
Qed.

Lemma tags_of_is_tag (mk : code_unit) (text t : jsstring) :
  In t (tags_of mk text) <-> is_tag mk text t.
Proof.
  split.
  - induction text as [|c s IH]; simpl; [tauto|].
    assert (Hrest : In t (tags_of mk s) -> is_tag mk (c :: s) t).
    { intros H. destruct (IH H) as [pre [post [-> Hr]]].
      exists (c :: pre), post. now split. }
    destruct (word_run s) as [|w ws] eqn:Hrun; [exact Hrest|].
    destruct (c =? mk)%N eqn:E; [|exact Hrest].
    intros [<-|H]; [|now apply Hrest].
    apply N.eqb_eq in E. subst c. exists [], (after_run s).
    rewrite <- Hrun. repeat split.
    + simpl. f_equal. apply run_split.
    + rewrite Hrun. discriminate.
    + apply word_run_all.
    + apply after_run_head.
  - intros [pre [post [-> [Hne [Hall Hpost]]]]].
    induction pre as [|c pre IH].
    + simpl. rewrite (word_run_app _ _ Hall Hpost), N.eqb_refl.
      destruct t; [congruence | now left].
    + change ((c :: pre) ++ mk :: t ++ post)
        with (c :: (pre ++ mk :: t ++ post)).
      cbn [tags_of].
      destruct (word_run (pre ++ mk :: t ++ post)); [exact IH|].
      destruct (c =? mk)%N; [now right | exact IH].
Qed.

Lemma first_occurrences_app (a b : list jsstring) :
  first_occurrences (a ++ b)
  = first_occurrences a
    ++ filter (fun t => negb (Set_has a t)) (first_occurrences b).
Proof.
  rewrite <- !new_Set_first_occurrences. unfold new_Set.
  rewrite fold_left_app, fold_Set_add. f_equal.
  fold (new_Set a). fold (new_Set b).
  rewrite !new_Set_first_occurrences. apply filter_ext. intros t. f_equal.
  destruct (Set_has a t) eqn:E.
  - apply Set_has_In. apply (proj2 (first_occurrences_In a t)).
    now apply Set_has_In.
  - destruct (Set_has (first_occurrences a) t) eqn:E'; [|reflexivity].
    apply (proj1 (Set_has_In _ t)) in E'.
    apply (proj1 (first_occurrences_In a t)) in E'.
    apply (proj2 (Set_has_In a t)) in E'. congruence.
Qed.

End ExtractTags.

(** C9. For every string [text], [extractTags] returns without raising a
    list [tags] that has no duplicates and holds exactly the words of
    the ['#']-plus-word-characters and ['@']-plus-word-characters tokens
    of [text], marker stripped; the list is empty when [text] has no
    such token; and on ["check #work @boss now"] it holds exactly
    ["work"] and ["boss"]. *)
Theorem C9_extractTags_tokens :
  forall (U : Unicode) (text : jsstring),
    (exists tags,
        extractTags (VString text) = Normal tags
        /\ NoDup tags
        /\ (forall t,
              In t tags <-> is_tag hash text t \/ is_tag at_sign text t)
        /\ ((forall t, ~ is_tag hash text t /\ ~ is_tag at_sign text t) ->
            tags = []))
    /\ (exists tags,
          extractTags (VString (js "check #work @boss now")) = Normal tags
          /\ forall t, In t tags <-> t = js "work" \/ t = js "boss").
Proof.
  intros U text. split.
  - eexists. split; [apply extractTags_string|].
    split; [apply first_occurrences_NoDup|]. split.
    + intros t. now rewrite first_occurrences_In, in_app_iff, !tags_of_is_tag.
    + intros Hnone.
      destruct (first_occurrences (tags_of hash text ++ tags_of at_sign text))
        as [|t l] eqn:E; [reflexivity|].
      assert (Ht : In t (t :: l)) by now left.
      rewrite <- E, first_occurrences_In, in_app_iff, !tags_of_is_tag in Ht.
      destruct (Hnone t). tauto.
  - exists [js "work"; js "boss"]. split; [now vm_compute|].
    intros t. simpl. intuition congruence.
Qed.

(** C10. For every string [text], the list [extractTags] returns is the
    hashtag tags in the order of their first appearance in [text],
    followed by the mention tags, in the order of their first
    appearance, that are not among the hashtag tags. *)
Theorem C10_extractTags_order :
  forall (U : Unicode) (text : jsstring),
    extractTags (VString text)
    = Normal
        (first_occurrences (tags_of hash text)
         ++ filter (fun t => negb (Set_has (tags_of hash text) t))
              (first_occurrences (tags_of at_sign text))).
Proof.
  intros U text. now rewrite extractTags_string, first_occurrences_app.
Qed.

(* ===================================================================== *)
(** ** Objects with plain keys *)
(* ===================================================================== *)

Lemma distinct_app_disjoint (l1 l2 : list jsstring) :
  distinct (l1 ++ l2) = true -> forall x, In x l1 -> In x l2 -> False.
Proof.
  induction l1 as [|a l1 IH]; simpl; [tauto|].
  intros Hd x [->|H1] H2; apply andb_prop in Hd; destruct Hd as [Ha Hd].
  - apply negb_true_iff in Ha.
    assert (Hx : In x (l1 ++ l2)) by (apply in_or_app; now right).
    apply (proj2 (existsb_eqb_In x _)) in Hx. congruence.
  - exact (IH Hd x H1 H2).
Qed.

Section ObjectFacts.

Variable A : Type.

Implicit Types (o : object A) (k : jsstring).

Lemma own_None o k : own o k = None <-> ~ In k (keys o).
Proof.
  induction o as [|[k' a] o IH]; simpl; [tauto|].
  destruct (JSString.eqb k' k) eqn:E.
  - apply eqb_eq in E. subst. split; [discriminate | tauto].
  - apply eqb_neq in E. rewrite IH. tauto.
Qed.

Lemma own_Some_In o k a : own o k = Some a -> In (k, a) o.
Proof.
  induction o as [|[k' b] o IH]; simpl; [discriminate|].
  destruct (JSString.eqb k' k) eqn:E.
  - apply eqb_eq in E. intros [= ->]. subst. now left.
  - intros H. right. now apply IH.
Qed.

Lemma In_own o k a : distinct (keys o) = true -> In (k, a) o -> own o k = Some a.
Proof.
  induction o as [|[k' b] o IH]; simpl; [tauto|].
  intros Hd. apply andb_prop in Hd. destruct Hd as [Hk Hd].
  intros [[= -> ->]|Hin].
  - now rewrite eqb_refl.
  - destruct (JSString.eqb k' k) eqn:E; [|now apply IH].
    apply eqb_eq in E. subst k'. apply negb_true_iff in Hk.
    assert (Hex : existsb (JSString.eqb k) (keys o) = true).
    { apply existsb_eqb_In. unfold keys. now apply (in_map fst) in Hin. }
    congruence.
Qed.

Lemma put_absent o k a : own o k = None -> put o k a = o ++ [(k, a)].
Proof.
  induction o as [|[k' b] o IH]; simpl; [reflexivity|].
  destruct (JSString.eqb k' k); [discriminate|].
  intros H. now rewrite IH.
Qed.

Lemma own_put_same o k a b : own o k = Some b -> own (put o k a) k = Some a.
Proof.
  induction o as [|[k' c] o IH]; simpl; [discriminate|].
  destruct (JSString.eqb k' k) eqn:E; simpl; rewrite E; [reflexivity|].
  exact IH.
Qed.

Lemma own_put_other o k k' a : k' <> k -> own (put o k a) k' = own o k'.
Proof.
  intros Hne. induction o as [|[k0 c] o IH]; simpl.
  - apply eqb_neq in Hne. rewrite eqb_sym in Hne. now rewrite Hne.
  - destruct (JSString.eqb k0 k) eqn:E; simpl.
    + apply eqb_eq in E. subst k0.
      apply not_eq_sym, eqb_neq in Hne. now rewrite Hne.
    + now rewrite IH.
Qed.

Lemma keys_put o k a b : own o k = Some b -> keys (put o k a) = keys o.
Proof.
  induction o as [|[k' c] o IH]; simpl; [discriminate|].
  destruct (JSString.eqb k' k); simpl; [reflexivity|].
  intros H. f_equal. now apply IH.
Qed.

(** Without array-index keys [Object.entries] lists the properties as
    they were created. *)
Lemma Object_entries_plain o :
  forallb plain_key (keys o) = true -> Object_entries o = o.
Proof.
  intros H. unfold Object_entries, index_entries.
  assert (Hidx : forall e, In e o -> is_index (fst e) = false).
  { intros e He. rewrite forallb_forall in H.
    specialize (H (fst e) (in_map fst _ _ He)).
    unfold plain_key in H. apply andb_prop in H.
    now apply negb_true_iff. }
  assert (E : flat_map (fun e => match array_index (fst e) with
                                 | Some n => [(n, e)]
                                 | None => []
                                 end) o = []).
  { clear H. induction o as [|e o IH]; [reflexivity|]. simpl.
    pose proof (Hidx e (or_introl eq_refl)) as He. unfold is_index in He.
    destruct (array_index (fst e)); [discriminate|].
    apply IH. intros e' He'. apply Hidx. now right. }
  rewrite E. simpl. apply forallb_filter_id. apply forallb_forall.
  intros e He. now rewrite (Hidx e He).
Qed.

(** Assigning, in turn, to keys that are plain and not there yet
    appends the properties in that order. *)
Lemma fold_assign (B : Type) (f : B -> A) (l : object B) :
  forall acc : object A,
    plain_keys (keys acc ++ keys l) = true ->
    fold_left (fun sc e => assign sc (fst e) (f (snd e))) l acc
    = acc ++ map (fun e => (fst e, f (snd e))) l.
Proof.
  induction l as [|[k b] l IH]; intros acc H; simpl.
  - now rewrite app_nil_r.
  - assert (Hk : own acc k = None /\ JSString.eqb k (js "__proto__") = false).
    { unfold plain_keys in H. apply andb_prop in H. destruct H as [Hd Hp].
      split.
      - apply own_None. intros Hin.
        apply (distinct_app_disjoint _ _ Hd k Hin). now left.
      - rewrite forallb_app in Hp. apply andb_prop in Hp.
        destruct Hp as [_ Hp]. simpl in Hp. apply andb_prop in Hp.
        destruct Hp as [Hp _]. unfold plain_key in Hp.
        apply andb_prop in Hp. now apply negb_true_iff. }
    destruct Hk as [Hown Hproto]. unfold assign at 2.
    rewrite Hown, Hproto, put_absent by assumption.
    rewrite IH.
    + now rewrite <- app_assoc.
    + unfold keys in *. rewrite map_app, <- app_assoc. exact H.
Qed.

End ObjectFacts.

(* ===================================================================== *)
(** ** The table under [addKeyword] *)
(* ===================================================================== *)

Section TableFacts.

Context {U : Unicode}.

Lemma keys_shape (tbl : table) : keys tbl = map (fun x => fst (fst x)) (shape tbl).
Proof. unfold keys, shape. rewrite map_map. reflexivity. Qed.

Lemma shape_put (tbl : table) (k : jsstring) (d d' : CategoryData) :
  own tbl k = Some d -> icon d' = icon d -> patterns d' = patterns d ->
  shape (put tbl k d') = shape tbl.
Proof.
  intros Hown Hi Hp. induction tbl as [|[k0 d0] tbl IH]; simpl in *;
    [discriminate|].
  destruct (JSString.eqb k0 k); simpl.
  - injection Hown as ->. now rewrite Hi, Hp.
  - f_equal. now apply IH.
Qed.

Lemma get_Own (tbl : table) (k : jsstring) (d : CategoryData) :
  get tbl k = Own d <-> own tbl k = Some d.
Proof.
  unfold get. destruct (own tbl k).
  - split; congruence.
  - destruct (existsb _ _); split; discriminate.
Qed.

Lemma addKeyword_shape (tbl : table) (category keyword : value) :
  shape (fst (addKeyword tbl category keyword)) = shape tbl.
Proof.
  unfold addKeyword. destruct (get tbl (ToPropertyKey category)) eqn:E;
    [|reflexivity|reflexivity].
  destruct (this_string keyword); [|reflexivity].
  simpl. apply get_Own in E. now apply shape_put with (d := a).
Qed.

Lemma fold_addKeyword_shape (calls : list (value * value)) :
  forall tbl : table,
    shape (fold_left (fun t c => fst (addKeyword t (fst c) (snd c))) calls tbl)
    = shape tbl.
Proof.
  induction calls as [|c calls IH]; intros tbl; simpl; [reflexivity|].
  now rewrite IH, addKeyword_shape.
Qed.

Lemma after_shape (calls : list (value * value)) :
  shape (after calls) = shape categories.
Proof. apply fold_addKeyword_shape. Qed.

Lemma after_keys (calls : list (value * value)) :
  keys (after calls) = keys categories.
Proof. now rewrite !keys_shape, after_shape. Qed.

Lemma categories_plain : plain_keys (keys categories) = true.
Proof. now vm_compute. Qed.

Lemma after_plain (calls : list (value * value)) :
  plain_keys (keys (after calls)) = true.
Proof. rewrite after_keys. apply categories_plain. Qed.

(** Tables of one shape hold the same icons under the same names. *)
Lemma shape_own_icon (t1 t2 : table) (k : jsstring) :
  shape t1 = shape t2 ->
  option_map icon (own t1 k) = option_map icon (own t2 k).
Proof.
  revert t2. induction t1 as [|[k1 d1] t1 IH]; intros [|[k2 d2] t2];
    simpl; try discriminate; [reflexivity|].
  intros [= -> Hi _ Hs]. destruct (JSString.eqb k2 k); simpl.
  - now rewrite Hi.
  - now apply IH.
Qed.

Lemma after_notatka (calls : list (value * value)) :
  exists d, own (after calls) (js "notatka") = Some d /\ icon d = js "📝".
Proof.
  pose proof (@shape_own_icon _ _ (js "notatka") (after_shape calls)) as H.
  change (option_map icon (own categories (js "notatka")))
    with (Some (js "📝")) in H.
  destruct (own (after calls) (js "notatka")) as [d|]; [|discriminate].
  exists d. split; [reflexivity|]. simpl in H. congruence.
Qed.

(** *** Scores *)

Lemma fold_keyword_step (norm : jsstring) (kws : list jsstring) :
  forall acc : Z,
    fold_left (keyword_step norm) kws acc
    = (acc + 2 * count (fun k => includes norm (toLowerCase k)) kws)%Z.
Proof.
  unfold count. induction kws as [|k kws IH]; intros acc;
    cbn [fold_left filter length]; [lia|].
  rewrite IH. unfold keyword_step.
  destruct (includes norm (toLowerCase k)); cbn [length]; lia.
Qed.

Lemma fold_pattern_step (text : jsstring) (ps : list RegExp) :
  forall acc : Z,
    fold_left (pattern_step text) ps acc
    = (acc + 3 * count (fun p => test p text) ps)%Z.
Proof.
  unfold count. induction ps as [|p ps IH]; intros acc;
    cbn [fold_left filter length]; [lia|].
  rewrite IH. unfold pattern_step.
  destruct (test p text); cbn [length]; lia.
Qed.

Lemma category_score_count (text norm : jsstring) (d : CategoryData) :
  category_score text norm d
  = (2 * count (fun k => includes norm (toLowerCase k)) (keywords d)
     + 3 * count (fun p => test p text) (patterns d))%Z.
Proof.
  unfold category_score. rewrite fold_pattern_step, fold_keyword_step. lia.
Qed.

Lemma category_score_nonneg (text norm : jsstring) (d : CategoryData) :
  (0 <= category_score text norm d)%Z.
Proof. rewrite category_score_count. unfold count. lia. Qed.

(** On a table with plain keys the object [scores] lists the categories
    in table order, and both loops of [categorize] walk that order. *)
Lemma compute_scores_plain (tbl : table) (text : jsstring) :
  plain_keys (keys tbl) = true ->
  compute_scores tbl text
  = map (fun e => (fst e,
                   category_score text (trim (toLowerCase text)) (snd e)))
      tbl.
Proof.
  intros H. unfold compute_scores.
  rewrite Object_entries_plain
    by (unfold plain_keys in H; now apply andb_prop in H).
  now rewrite fold_assign.
Qed.

Lemma scores_keys (tbl : table) (f : CategoryData -> Z) :
  keys (map (fun e => (fst e, f (snd e))) tbl) = keys tbl.
Proof. unfold keys. rewrite map_map. reflexivity. Qed.

Lemma select_plain (tbl : table) (text : jsstring) :
  plain_keys (keys tbl) = true ->
  select (compute_scores tbl text)
  = fold_left best_step
      (map (fun e => (fst e,
                      category_score text (trim (toLowerCase text)) (snd e)))
         tbl)
      (js "notatka", 0%Z).
Proof.
  intros H. unfold select. rewrite compute_scores_plain by assumption.
  rewrite Object_entries_plain; [reflexivity|].
  rewrite scores_keys. unfold plain_keys in H. now apply andb_prop in H.
Qed.

(** *** Selection *)

(** The second loop keeps the start value when nothing exceeds it, and
    otherwise stops at the first entry of the largest score. *)
Lemma fold_best_step (l : list (jsstring * Z)) :
  forall (c0 : jsstring) (s0 : Z),
    (fold_left best_step l (c0, s0) = (c0, s0)
     /\ Forall (fun e => (snd e <= s0)%Z) l)
    \/ (exists l1 c s l2,
          fold_left best_step l (c0, s0) = (c, s)
          /\ l = l1 ++ (c, s) :: l2
          /\ (s0 < s)%Z
          /\ Forall (fun e => (snd e < s)%Z) l1
          /\ Forall (fun e => (snd e <= s)%Z) l2).
Proof.
  induction l as [|[c1 s1] l IH]; intros c0 s0; cbn [fold_left].
  - left. split; [reflexivity | constructor].
  - change (best_step (c0, s0) (c1, s1))
      with (if (s1 >? s0)%Z then (c1, s1) else (c0, s0)).
    destruct (s1 >? s0)%Z eqn:E.
    + apply Z.gtb_lt in E. right.
      destruct (IH c1 s1) as [[Hr Hall]|[l1 [c [s [l2 [Hr [-> [Hs [H1 H2]]]]]]]]].
      * exists [], c1, s1, l. repeat split; try assumption. constructor.
      * exists ((c1, s1) :: l1), c, s, l2. repeat split; try assumption.
        -- lia.
        -- constructor; [simpl; lia | assumption].
    + assert (E' : (s1 <= s0)%Z) by (rewrite Z.gtb_ltb in E; apply Z.ltb_ge in E; lia).
      destruct (IH c0 s0) as [[Hr Hall]|[l1 [c [s [l2 [Hr [-> [Hs [H1 H2]]]]]]]]].
      * left. split; [assumption|]. constructor; [exact E' | assumption].
      * right. exists ((c1, s1) :: l1), c, s, l2. repeat split; try assumption.
        constructor; [simpl; lia | assumption].
Qed.

End TableFacts.

(* ===================================================================== *)
(** ** [categorize] *)
(* ===================================================================== *)

Section CategorizeFacts.

Context {U : Unicode}.

Lemma value_cases (v : value) :
  (exists c s, v = VString (c :: s)) \/ (forall c s, v <> VString (c :: s)).
Proof.
  destruct v as [| |b|n|[|c s]|]; try (right; discriminate).
  left. now exists c, s.
Qed.

(** The guard: anything but a non-empty string gets the fallback. *)
Lemma categorize_guard (tbl : table) (v : value) :
  (forall c s, v <> VString (c :: s)) ->
  categorize tbl v = Normal fallback.
Proof.
  intros H. destruct v as [| |b|n|s|]; try reflexivity.
  - unfold categorize. now rewrite orb_true_r.
  - unfold categorize. now rewrite orb_true_r.
  - destruct s as [|c s]; [reflexivity|]. now destruct (H c s).
Qed.

(** Past the guard, on a table built by [addKeyword]: the winner of the
    second loop is a category of the table, its score is the best
    score, and the result is made of them. *)
Lemma categorize_string (calls : list (value * value)) (c : code_unit)
    (s : jsstring) :
  let text := c :: s in
  let score := category_score text (trim (toLowerCase text)) in
  exists bestCategory bestScore d,
    fold_left best_step
      (map (fun e => (fst e, score (snd e))) (after calls))
      (js "notatka", 0%Z)
    = (bestCategory, bestScore)
    /\ own (after calls) bestCategory = Some d
    /\ bestScore = score d
    /\ categorize (after calls) (VString text)
       = Normal {| Result.category := bestCategory;
                   Result.icon := VString (icon d);
                   Result.confidence :=
                     Qmin (inject_Z bestScore / inject_Z maxPossibleScore)%Q
                       1%Q |}.
Proof.
  intros text score.
  pose proof (after_plain calls) as Hplain.
  assert (Hd : distinct (keys (after calls)) = true)
    by (unfold plain_keys in Hplain; now apply andb_prop in Hplain).
  assert (Hfind : exists bestCategory bestScore d,
    fold_left best_step
      (map (fun e => (fst e, score (snd e))) (after calls))
      (js "notatka", 0%Z)
    = (bestCategory, bestScore)
    /\ own (after calls) bestCategory = Some d
    /\ bestScore = score d).
  { destruct (fold_best_step
                (map (fun e => (fst e, score (snd e))) (after calls))
                (js "notatka") 0%Z)
      as [[Hr Hall]|[l1 [bc [bs [l2 [Hr [Hl [Hs [H1 H2]]]]]]]]].
    - destruct (after_notatka calls) as [d [Hown _]].
      exists (js "notatka"), 0%Z, d. repeat split; try assumption.
      apply own_Some_In in Hown. rewrite Forall_forall in Hall.
      specialize (Hall (js "notatka", score d)).
      pose proof (category_score_nonneg text (trim (toLowerCase text)) d).
      fold (score d) in H. cbn [snd] in Hall.
      assert (score d <= 0)%Z; [|lia].
      apply Hall. apply in_map_iff. now exists (js "notatka", d).
    - assert (Hin : In (bc, bs)
                      (map (fun e => (fst e, score (snd e))) (after calls)))
        by (rewrite Hl; apply in_or_app; right; now left).
      apply in_map_iff in Hin. destruct Hin as [[k d] [Heq Hin]].
      cbn [fst snd] in Heq. injection Heq as Hk Hsc. subst k.
      exists bc, bs, d. repeat split; [assumption| |now symmetry].
      now apply In_own. }
  destruct Hfind as [bc [bs [d [Hr [Hown Hs]]]]].
  exists bc, bs, d. repeat split; try assumption.
  unfold categorize. cbn [ToBoolean typeof string_of].
  change (JSString.eqb (js "string") (js "string")) with true.
  cbn [negb orb]. rewrite select_plain by assumption.
  fold text. fold score. rewrite Hr.
  apply get_Own in Hown. now rewrite Hown.
Qed.

Lemma confidence_bounds (bestScore : Z) :
  (0 <= bestScore)%Z ->
  (0 <= Qmin (inject_Z bestScore / inject_Z maxPossibleScore) 1
   /\ Qmin (inject_Z bestScore / inject_Z maxPossibleScore) 1 <= 1)%Q.
Proof.
  intros H. split; [|apply Q.le_min_r].
  apply Q.min_glb; [|discriminate].
  unfold Qle, Qdiv, Qmult, Qinv, inject_Z, maxPossibleScore. simpl. lia.
Qed.

(** *** Stored keywords are lower case *)

Lemma Forall_put (A : Type) (P : jsstring * A -> Prop) (o : object A)
    (k : jsstring) (a : A) :
  Forall P o -> (forall k', P (k', a)) -> Forall P (put o k a).
Proof.
  intros Ho Ha. induction Ho as [|[k0 b] o Hb Ho IH]; simpl.
  - constructor; [apply Ha | constructor].
  - destruct (JSString.eqb k0 k); constructor; auto.
Qed.

Lemma addKeyword_lowered (tbl : table) (category keyword : value) :
  (forall s, toLowerCase (toLowerCase s) = toLowerCase s) ->
  lowered tbl -> lowered (fst (addKeyword tbl category keyword)).
Proof.
  intros Hidem Hl. unfold addKeyword.
  destruct (get tbl (ToPropertyKey category)) as [d| |] eqn:E;
    [|assumption|assumption].
  destruct (this_string keyword) as [k|]; [|assumption].
  cbn [fst]. apply Forall_put; [assumption|]. intros k'. cbn [snd].
  apply get_Own, own_Some_In in E. unfold lowered in Hl.
  rewrite Forall_forall in Hl. specialize (Hl _ E). cbn [snd] in Hl.
  unfold push_keyword. cbn [keywords]. apply Forall_app. split; [assumption|].
  constructor; [apply Hidem | constructor].
Qed.

Lemma after_lowered (calls : list (value * value)) :
  (forall s, toLowerCase (toLowerCase s) = toLowerCase s) ->
  lowered categories -> lowered (after calls).
Proof.
  intros Hidem. unfold after. generalize categories.
  induction calls as [|c calls IH]; intros tbl Hl; simpl; [assumption|].
  apply IH. now apply addKeyword_lowered.
Qed.

Lemma score_of_lowered (text : jsstring) (d : CategoryData) :
  Forall (fun k => toLowerCase k = k) (keywords d) ->
  category_score text (trim (toLowerCase text)) d = score_of text d.
Proof.
  intros H. rewrite category_score_count. unfold score_of, count.
  do 4 f_equal. apply filter_ext_in. intros k Hk.
  rewrite Forall_forall in H. now rewrite (H k Hk).
Qed.

End CategorizeFacts.

(* ===================================================================== *)
(** ** [addKeyword] and [getAllCategories] *)
(* ===================================================================== *)

Section AddKeywordFacts.

Context {U : Unicode}.

(** A known category and a string keyword: the lower-cased keyword goes
    to the end of that category's list and nothing else changes. *)
Lemma addKeyword_known (tbl : table) (c k : jsstring) (d : CategoryData) :
  own tbl c = Some d ->
  exists tbl',
    addKeyword tbl (VString c) (VString k) = (tbl', Normal tt)
    /\ keys tbl' = keys tbl
    /\ own tbl' c
       = Some {| icon := icon d;
                 keywords := keywords d ++ [toLowerCase k];
                 patterns := patterns d |}
    /\ forall c', c' <> c -> own tbl' c' = own tbl c'.
Proof.
  intros Hown. unfold addKeyword. cbn [ToPropertyKey this_string].
  rewrite (proj2 (get_Own tbl c d) Hown).
  eexists. split; [reflexivity|]. split; [|split].
  - now apply keys_put with (b := d).
  - now apply own_put_same with (b := d).
  - intros c' Hne. now apply own_put_other.
Qed.



Lemma getAllCategories_after (calls : list (value * value)) :
  getAllCategories (after calls) = getAllCategories categories.
Proof.
  unfold getAllCategories.
  rewrite !Object_entries_plain.
  - transitivity (map (fun x => (fst (fst x), snd (fst x)))
                    (shape (after calls))).
    + unfold shape. now rewrite map_map.
    + rewrite after_shape. unfold shape. now rewrite map_map.
  - now vm_compute.
  - pose proof (after_plain calls) as H. unfold plain_keys in H.
    now apply andb_prop in H.
Qed.

End AddKeywordFacts.

(* ===================================================================== *)
(** ** The concrete Unicode table *)
(* ===================================================================== *)

Lemma In_units_from (n : nat) :
  forall lo c : N, (lo <= c < lo + N.of_nat n)%N -> In c (units_from lo n).
Proof.
  induction n as [|n IH]; intros lo c H; [lia|].
  simpl. destruct (N.eq_dec lo c) as [->|Hne]; [now left|].
  right. apply IH. lia.
Qed.

Lemma lower_unit_stable (c : code_unit) :
  flat_map Latin.lower_unit (Latin.lower_unit c) = Latin.lower_unit c.
Proof.
  destruct (N.lt_ge_cases c 512) as [Hc|Hc].
  - assert (Hall : forallb
                     (fun c => JSString.eqb
                                 (flat_map Latin.lower_unit (Latin.lower_unit c))
                                 (Latin.lower_unit c))
                     (units_from 0%N 512) = true) by now vm_compute.
    rewrite forallb_forall in Hall. apply eqb_eq. apply Hall.
    apply In_units_from. lia.
  - assert (E : Latin.lower_unit c = [c]).
    { unfold Latin.lower_unit, Latin.upper_of_pair, Latin.between.
      repeat match goal with
             | |- context [(?a <=? ?b)%N] =>
                 destruct (N.leb_spec a b); try lia
             | |- context [(?a =? ?b)%N] =>
                 destruct (N.eqb_spec a b); try lia
             end; reflexivity. }
    rewrite E. simpl. now rewrite E.
Qed.

Lemma Latin_toLowerCase_stable (s : jsstring) :
  toLowerCase (Unicode := Latin.unicode)
    (toLowerCase (Unicode := Latin.unicode) s)
  = toLowerCase (Unicode := Latin.unicode) s.
Proof.
  simpl. induction s as [|c s IH]; [reflexivity|].
  simpl. now rewrite flat_map_app, IH, lower_unit_stable.
Qed.

Lemma Latin_categories_lowered : lowered (U := Latin.unicode) categories.
Proof.
  unfold lowered. apply Forall_forall. intros e He.
  apply Forall_forall. intros k Hk. apply eqb_eq.
  assert (Hall : forallb
                   (fun e => forallb
                               (fun k => JSString.eqb
                                           (toLowerCase (Unicode := Latin.unicode) k) k)
                               (keywords (snd e)))
                   categories = true) by now vm_compute.
  rewrite forallb_forall in Hall. specialize (Hall e He).
  rewrite forallb_forall in Hall. now apply Hall.
Qed.

(* ===================================================================== *)
(** ** The claims about [categorize] *)
(* ===================================================================== *)

(** C1. On a host whose [toLowerCase] is idempotent and leaves the
    built-in keywords as they are, after any calls of [addKeyword] and
    for every non-empty string [text], the object [scores] that
    [categorize] builds gives every category 2 for each entry of its
    keyword list that is a substring of the lower-cased, trimmed text
    plus 3 for each of its patterns that matches the original text, and
    the result of [categorize] is selected from these scores. *)
Theorem C1_scores_of_keywords_and_patterns :
  forall (U : Unicode),
    (forall s, toLowerCase (toLowerCase s) = toLowerCase s) ->
    lowered categories ->
    forall (calls : list (value * value)) (text : jsstring),
      text <> [] ->
      compute_scores (after calls) text = scores_of (after calls) text
      /\ exists r,
           categorize (after calls) (VString text) = Normal r
           /\ Result.category r
              = fst (select (scores_of (after calls) text))
           /\ Result.confidence r
              = Qmin (inject_Z (snd (select (scores_of (after calls) text)))
                      / inject_Z 15)%Q 1%Q.
Proof.
  intros U Hidem Hlow calls text Hne.
  destruct text as [|c s]; [congruence|].
  assert (Hsc : compute_scores (after calls) (c :: s)
                = scores_of (after calls) (c :: s)).
  { rewrite compute_scores_plain by apply after_plain.
    apply map_ext_in. intros e He. f_equal. apply score_of_lowered.
    pose proof (after_lowered calls Hidem Hlow) as Hl.
    unfold lowered in Hl. rewrite Forall_forall in Hl. now apply Hl. }
  split; [exact Hsc|].
  destruct (categorize_string calls c s) as [bc [bs [d [Hr [_ [_ Hcat]]]]]].
  eexists. split; [exact Hcat|].
  rewrite <- Hsc, select_plain by apply after_plain.
  rewrite Hr. split; reflexivity.
Qed.

(** C2. After any calls of [addKeyword] and for every non-empty string
    [text] on which some category scores above 0, [categorize] returns a
    category of the highest score, and the first such category in the
    iteration order of the table: every category before it scores
    strictly less, every category after it scores no more. *)
Theorem C2_first_highest_score_wins :
  forall (U : Unicode) (calls : list (value * value)) (text : jsstring),
    let score := category_score text (trim (toLowerCase text)) in
    text <> [] ->
    Exists (fun e => (0 < score (snd e))%Z) (after calls) ->
    exists r before d later,
      categorize (after calls) (VString text) = Normal r
      /\ Object_entries (after calls)
         = before ++ (Result.category r, d) :: later
      /\ (0 < score d)%Z
      /\ Forall (fun e => (score (snd e) < score d)%Z) before
      /\ Forall (fun e => (score (snd e) <= score d)%Z) later.
Proof.
  intros U calls text score Hne Hpos.
  destruct text as [|c s]; [congruence|].
  destruct (categorize_string calls c s) as [bc [bs [d [Hr [Hown [Hs Hcat]]]]]].
  fold score in Hr, Hs.
  pose proof (after_plain calls) as Hplain. unfold plain_keys in Hplain.
  apply andb_prop in Hplain. destruct Hplain as [Hd Hp].
  rewrite (Object_entries_plain _ Hp).
  destruct (fold_best_step
              (map (fun e => (fst e, score (snd e))) (after calls))
              (js "notatka") 0%Z)
    as [[_ Hall]|[l1 [bc' [bs' [l2 [Hr' [Hl [Hs' [H1 H2]]]]]]]]].
  - exfalso. apply Exists_exists in Hpos. destruct Hpos as [e [He Hgt]].
    rewrite Forall_forall in Hall.
    specialize (Hall (fst e, score (snd e))). cbn [snd] in Hall.
    assert (score (snd e) <= 0)%Z; [|lia].
    apply Hall. apply in_map_iff. now exists e.
  - rewrite Hr in Hr'. injection Hr' as <- <-.
    apply map_eq_app in Hl. destruct Hl as [t1 [t2' [Ht [Hm1 Hm2]]]].
    apply map_eq_cons in Hm2. destruct Hm2 as [e [t2 [-> [He Hm2]]]].
    destruct e as [k d']. cbn [fst snd] in He. injection He as -> Hsd.
    assert (d' = d).
    { assert (Hin : In (bc, d') (after calls))
        by (rewrite Ht; apply in_or_app; right; now left).
      apply (In_own _ _ _ Hd) in Hin. congruence. }
    subst d'.
    eexists. exists t1, d, t2. split; [exact Hcat|]. cbn [Result.category].
    split; [exact Ht|]. split; [lia|]. split.
    + subst l1. rewrite Forall_map in H1. cbn [snd] in H1.
      rewrite <- Hs. exact H1.
    + subst l2. rewrite Forall_map in H2. cbn [snd] in H2.
      rewrite <- Hs. exact H2.
Qed.

(** C3. Whatever the table, for every input that is not a non-empty
    string (the empty string, [null], [undefined], a boolean, a number,
    an object), [categorize] returns, without raising,
    [{category: 'notatka', icon: '📝', confidence: 0}]. *)
Theorem C3_fallback_for_non_text :
  forall (U : Unicode) (tbl : table) (v : value),
    (forall c s, v <> VString (c :: s)) ->
    categorize tbl v
    = Normal {| Result.category := js "notatka";
                Result.icon := VString (js "📝");
                Result.confidence := 0%Q |}.
Proof. intros U tbl v H. now apply categorize_guard. Qed.

(** C5. After any calls of [addKeyword] and for every input,
    [categorize] returns a confidence equal to [min (bestScore / 15) 1],
    hence between 0 and 1, where [bestScore] is the score of the
    returned category when the input is a non-empty string, and 0 for
    the inputs the guard answers. *)
Theorem C5_confidence :
  forall (U : Unicode) (calls : list (value * value)) (v : value),
    exists r bestScore,
      categorize (after calls) v = Normal r
      /\ (Result.confidence r == Qmin (inject_Z bestScore / inject_Z 15) 1)%Q
      /\ (0 <= Result.confidence r)%Q
      /\ (Result.confidence r <= 1)%Q
      /\ (forall c s,
            v = VString (c :: s) ->
            exists d,
              own (after calls) (Result.category r) = Some d
              /\ bestScore
                 = category_score (c :: s) (trim (toLowerCase (c :: s))) d)
      /\ ((forall c s, v <> VString (c :: s)) -> bestScore = 0%Z).
Proof.
  intros U calls v.
  destruct (value_cases v) as [[c [s ->]]|Hguard].
  - destruct (categorize_string calls c s) as [bc [bs [d [Hr [Hown [Hs Hcat]]]]]].
    assert (Hnn : (0 <= bs)%Z)
      by (rewrite Hs; apply category_score_nonneg).
    destruct (confidence_bounds Hnn) as [Hlo Hhi].
    eexists. exists bs. split; [exact Hcat|]. cbn [Result.confidence Result.category].
    split; [reflexivity|]. split; [exact Hlo|]. split; [exact Hhi|]. split.
    + intros c' s' [= <- <-]. now exists d.
    + intros H. now destruct (H c s).
  - exists fallback, 0%Z. split; [now apply categorize_guard|].
    cbn [fallback Result.confidence].
    split; [reflexivity|]. split; [discriminate|]. split; [discriminate|].
    split; [|reflexivity].
    intros c s ->. now destruct (Hguard c s).
Qed.

(** C6. After any calls of [addKeyword] and for every non-empty string
    [text] on which every category scores 0, [categorize] returns the
    fallback category ['notatka'] with its icon and confidence 0, not
    the first entry of the table. *)
Theorem C6_fallback_when_nothing_scores :
  forall (U : Unicode) (calls : list (value * value)) (text : jsstring),
    text <> [] ->
    Forall (fun e =>
              category_score text (trim (toLowerCase text)) (snd e) = 0%Z)
      (after calls) ->
    exists r,
      categorize (after calls) (VString text) = Normal r
      /\ Result.category r = js "notatka"
      /\ Result.icon r = VString (js "📝")
      /\ (Result.confidence r == 0)%Q
      /\ hd_error (keys (after calls)) <> Some (Result.category r).
Proof.
  intros U calls text Hne Hzero.
  destruct text as [|c s]; [congruence|].
  destruct (categorize_string calls c s) as [bc [bs [d [Hr [Hown [Hs Hcat]]]]]].
  destruct (fold_best_step
              (map (fun e => (fst e,
                              category_score (c :: s)
                                (trim (toLowerCase (c :: s))) (snd e)))
                 (after calls))
              (js "notatka") 0%Z)
    as [[Hr' _]|[l1 [bc' [bs' [l2 [Hr' [Hl [Hs' _]]]]]]]].
  - rewrite Hr in Hr'. injection Hr' as -> ->.
    destruct (after_notatka calls) as [d' [Hown' Hicon]].
    assert (d' = d) by congruence. subst d'.
    eexists. split; [exact Hcat|]. cbn [Result.category Result.icon Result.confidence].
    split; [reflexivity|]. split; [now rewrite Hicon|].
    split; [reflexivity|]. rewrite after_keys. discriminate.
  - exfalso.
    assert (Hin : In (bc', bs')
                    (map (fun e => (fst e,
                                    category_score (c :: s)
                                      (trim (toLowerCase (c :: s))) (snd e)))
                       (after calls)))
      by (rewrite Hl; apply in_or_app; right; now left).
    apply in_map_iff in Hin. destruct Hin as [e [[= _ Hse] He]].
    rewrite Forall_forall in Hzero. specialize (Hzero e He). lia.
Qed.

(** Every input gets a result whose category is a key of the table and
    whose icon is the one stored there. *)
Lemma categorize_in_table (U : Unicode) (calls : list (value * value))
    (v : value) :
  exists r d,
    categorize (after calls) v = Normal r
    /\ In (Result.category r) (keys (after calls))
    /\ own (after calls) (Result.category r) = Some d
    /\ Result.icon r = VString (icon d).
Proof.
  assert (Hkey : forall k d, own (after calls) k = Some d ->
                             In k (keys (after calls))).
  { intros k d H. apply own_Some_In in H. unfold keys.
    now apply (in_map fst) in H. }
  destruct (value_cases v) as [[c [s ->]]|Hguard].
  - destruct (categorize_string calls c s) as [bc [bs [d [_ [Hown [_ Hcat]]]]]].
    eexists. exists d. split; [exact Hcat|]. cbn [Result.category Result.icon].
    split; [now apply Hkey with d|]. now split.
  - destruct (after_notatka calls) as [d [Hown Hicon]].
    exists fallback, d. split; [now apply categorize_guard|].
    cbn [fallback Result.category Result.icon].
    split; [now apply Hkey with d|]. split; [exact Hown|]. now rewrite Hicon.
Qed.

(** C7. After any calls of [addKeyword] and for every input,
    [categorize] returns a category that is a key of the table, with
    the icon the table stores under that key. *)
Theorem C7_category_in_table :
  forall (U : Unicode) (calls : list (value * value)) (v : value),
    exists r d,
      categorize (after calls) v = Normal r
      /\ In (Result.category r) (keys (after calls))
      /\ own (after calls) (Result.category r) = Some d
      /\ Result.icon r = VString (icon d).
Proof. intros U calls v. apply categorize_in_table. Qed.

(* ===================================================================== *)
(** ** The claims about errors and about [addKeyword] *)
(* ===================================================================== *)


(* ===================================================================== *)
(** ** The claims at concrete inputs *)
(* ===================================================================== *)

Section Witnesses.

Existing Instance Latin.unicode.

Lemma C1_witness :
  let calls := [(VString (js "zadanie"), VString (js "ODDZWONIĆ"))] in
  let text := js "Muszę oddzwonić do mamy!" in
  text <> []
  /\ compute_scores (after calls) text
     = scores_of (after calls) text
  /\ exists r,
       categorize (after calls) (VString text) = Normal r
       /\ Result.category r = fst (select (scores_of (after calls) text))
       /\ Result.confidence r
          = Qmin (inject_Z (snd (select (scores_of (after calls) text)))
                  / inject_Z 15)%Q 1%Q.
Proof.
  intros calls text.
  assert (Hne : text <> []) by discriminate.
  split; [exact Hne|].
  exact (@C1_scores_of_keywords_and_patterns Latin.unicode
           Latin_toLowerCase_stable Latin_categories_lowered
           calls text Hne).
Defined.

Lemma C2_witness :
  let text := js "muszę zadzwonić do mamy" in
  exists r before d later,
    categorize (after []) (VString text) = Normal r
    /\ Object_entries (after []) = before ++ (Result.category r, d) :: later
    /\ (0 < category_score text (trim (toLowerCase text)) d)%Z
    /\ Forall (fun e => (category_score text (trim (toLowerCase text)) (snd e)
                         < category_score text (trim (toLowerCase text)) d)%Z)
         before
    /\ Forall (fun e => (category_score text (trim (toLowerCase text)) (snd e)
                         <= category_score text (trim (toLowerCase text)) d)%Z)
         later.
Proof.
  intros text.
  apply (@C2_first_highest_score_wins Latin.unicode [] text).
  - discriminate.
  - apply Exists_cons_hd. now vm_compute.
Defined.

Lemma C3_witness :
  categorize categories VNull
  = Normal {| Result.category := js "notatka";
              Result.icon := VString (js "📝");
              Result.confidence := 0%Q |}.
Proof.
  apply (@C3_fallback_for_non_text Latin.unicode categories VNull).
  discriminate.
Defined.

Lemma C6_witness :
  let text := js "xyz" in
  exists r,
    categorize (after []) (VString text) = Normal r
    /\ Result.category r = js "notatka"
    /\ Result.icon r = VString (js "📝")
    /\ (Result.confidence r == 0)%Q
    /\ hd_error (keys (after [])) <> Some (Result.category r).
Proof.
  intros text.
  apply (@C6_fallback_when_nothing_scores Latin.unicode [] text).
  - discriminate.
  - apply Forall_forall. intros e He.
    assert (Hall : forallb
                     (fun e => (category_score text
                                  (trim (toLowerCase text)) (snd e) =? 0)%Z)
                     (after []) = true) by now vm_compute.
    rewrite forallb_forall in Hall. apply Z.eqb_eq. now apply Hall.
Defined.


(** C8, at the input where the code departs from it: ["constructor"] is
    not a key of the table, yet [addKeyword('constructor', 'x')] finds
    the inherited [Object.prototype.constructor], which is truthy and
    has no [keywords], and throws a [TypeError]. *)
Theorem C8_addKeyword_inherited_name :
  ~ In (js "constructor") (keys categories)
  /\ addKeyword categories (VString (js "constructor")) (VString (js "x"))
     = (categories, Throw TypeError).
Proof.
  split; [|reflexivity].
  intros H. apply existsb_eqb_In in H. now vm_compute in H.
Qed.

(** The examples of the specification. *)
Example keyword_scoring :
  let text := js "muszę zadzwonić do mamy" in
  own (compute_scores categories text) (js "zadanie") = Some 4%Z
  /\ option_map Result.category
       (match categorize categories (VString text) with
        | Normal r => Some r
        | Throw _ => None
        end)
     = Some (js "zadanie").
Proof. split; now vm_compute. Qed.

Example pattern_scoring :
  own (compute_scores categories (js "dlaczego niebo jest niebieskie?"))
    (js "pytanie")
  = Some 11%Z.
Proof. now vm_compute. Qed.

(** Patterns see the original text: the leading space keeps the
    anchored list-item pattern from matching, which it would on the
    trimmed text. *)
Example patterns_on_original_text :
  own (compute_scores categories (js " - x")) (js "zadanie") = Some 0%Z
  /\ own (compute_scores categories (trim (js " - x"))) (js "zadanie")
     = Some 3%Z.
Proof. split; now vm_compute. Qed.

Example addKeyword_learns :
  let tbl := fst (addKeyword categories (VString (js "zadanie"))
                    (VString (js "ODDZWONIĆ"))) in
  option_map (fun d => last (keywords d) []) (own tbl (js "zadanie"))
  = Some (js "oddzwonić")
  /\ own (compute_scores tbl (js "Oddzwonić jutro")) (js "zadanie")
     = Some 2%Z
  /\ own (compute_scores categories (js "Oddzwonić jutro")) (js "zadanie")
     = Some 0%Z.
Proof. repeat split; now vm_compute. Qed.

Example addKeyword_unknown_category :
  addKeyword categories (VString (js "no_such_category")) (VString (js "x"))
  = (categories, Normal tt).
Proof. reflexivity. Qed.

End Witnesses.

(* ===================================================================== *)
(** ** More about the categorizer *)
(* ===================================================================== *)

Section CategorizerMore.

Context {U : Unicode}.

(** The best score is the greatest of the scores, and the confidence is
    made of it. *)
Lemma categorize_best (calls : list (value * value)) (c : code_unit)
    (s : jsstring) :
  let text := c :: s in
  let score := category_score text (trim (toLowerCase text)) in
  exists r bestScore,
    categorize (after calls) (VString text) = Normal r
    /\ Result.confidence r
       = Qmin (inject_Z bestScore / inject_Z maxPossibleScore)%Q 1%Q
    /\ (0 <= bestScore)%Z
    /\ Forall (fun e => (score (snd e) <= bestScore)%Z) (after calls)
    /\ (bestScore = 0%Z \/ Exists (fun e => score (snd e) = bestScore) (after calls)).
Proof.
  intros text score.
  destruct (categorize_string calls c s) as [bc [bs [d [Hr [Hown [Hs Hcat]]]]]].
  fold text in Hr, Hs, Hcat. fold score in Hr, Hs.
  eexists. exists bs. split; [exact Hcat|]. cbn [Result.confidence].
  split; [reflexivity|].
  assert (Hnn : (0 <= bs)%Z) by (rewrite Hs; apply category_score_nonneg).
  split; [exact Hnn|].
  destruct (fold_best_step
              (map (fun e => (fst e, score (snd e))) (after calls))
              (js "notatka") 0%Z)
    as [[Hr' Hall]|[l1 [bc' [bs' [l2 [Hr' [Hl [Hs' [H1 H2]]]]]]]]];
    rewrite Hr in Hr'; injection Hr' as Hbc Hbs.
  - split; [|now left].
    rewrite Forall_map in Hall. rewrite Hbs. exact Hall.
  - rewrite <- Hbs in Hl, H1, H2. rewrite <- Hbc in Hl. split.
    + assert (Hall : Forall (fun e : jsstring * Z => (snd e <= bs)%Z)
                       (map (fun e => (fst e, score (snd e))) (after calls))).
      { rewrite Hl. apply Forall_app. split.
        - eapply Forall_impl; [|exact H1]. cbn beta. intros; lia.
        - constructor; [cbn [snd]; lia | exact H2]. }
      rewrite Forall_map in Hall. exact Hall.
    + right. apply Exists_exists.
      assert (Hin : In (bc, bs)
                      (map (fun e => (fst e, score (snd e))) (after calls)))
        by (rewrite Hl; apply in_or_app; right; now left).
      apply in_map_iff in Hin. destruct Hin as [e [He Hin]].
      exists e. split; [exact Hin|]. now injection He.
Qed.

Lemma count_In_pos (A : Type) (f : A -> bool) (l : list A) (x : A) :
  In x l -> f x = true -> (1 <= count f l)%Z.
Proof.
  intros Hin Hf. unfold count.
  assert (In x (filter f l)) by (apply filter_In; now split).
  destruct (filter f l); [contradiction | cbn [length]; lia].
Qed.

Lemma count_le_length (A : Type) (f : A -> bool) (l : list A) :
  (0 <= count f l <= Z.of_nat (length l))%Z.
Proof. unfold count. pose proof (filter_length_le f l). lia. Qed.

Lemma count_app (A : Type) (f : A -> bool) (l1 l2 : list A) :
  count f (l1 ++ l2) = (count f l1 + count f l2)%Z.
Proof. unfold count. rewrite filter_app, length_app. lia. Qed.

(** A confidence of at least [n / 15] for a best score of at least
    [n], up to 15. *)
Lemma confidence_at_least (n bestScore : Z) :
  (0 <= n <= 15)%Z -> (n <= bestScore)%Z ->
  (inject_Z n / inject_Z 15
   <= Qmin (inject_Z bestScore / inject_Z maxPossibleScore) 1)%Q.
Proof.
  intros Hn Hle. apply Q.min_glb.
  - unfold Qle, Qdiv, Qmult, Qinv, inject_Z, maxPossibleScore. simpl. lia.
  - unfold Qle, Qdiv, Qmult, Qinv, inject_Z. simpl. lia.
Qed.




End CategorizerMore.

(** X1. Whatever calls of [addKeyword] were made, returning or
    throwing, [getAllCategories] lists the eleven built-in categories
    with their icons, in the order of the table. *)
Theorem X1_getAllCategories_fixed :
  forall (U : Unicode) (calls : list (value * value)),
    getAllCategories (after calls)
    = map (fun e => (fst e, icon (snd e))) categories
    /\ map fst (getAllCategories (after calls)) = keys (after calls)
    /\ length (getAllCategories (after calls)) = 11.
Proof.
  intros U calls. rewrite getAllCategories_after, after_keys.
  repeat split; now vm_compute.
Qed.

(** X2. On any table, [addKeyword] with a key of the table and a string
    keyword returns normally, appends the lower-cased keyword to that
    category's list, keeps its icon and patterns, keeps the keys and
    their order, and leaves every other category as it was. *)
Theorem X2_addKeyword_appends :
  forall (U : Unicode) (tbl : table) (c k : jsstring) (d : CategoryData),
    own tbl c = Some d ->
    exists tbl',
      addKeyword tbl (VString c) (VString k) = (tbl', Normal tt)
      /\ keys tbl' = keys tbl
      /\ own tbl' c
         = Some {| icon := icon d;
                   keywords := keywords d ++ [toLowerCase k];
                   patterns := patterns d |}
      /\ forall c', c' <> c -> own tbl' c' = own tbl c'.
Proof. intros U tbl c k d H. now apply addKeyword_known. Qed.


(** X4. After [addKeyword] on a key of the table with a string keyword,
    that category's score on every text is its old score plus 2 when
    the normalized text contains the stored keyword (lower-cased once
    more by the scoring loop), and its old score otherwise: a keyword
    that is already in the list counts again. *)
Theorem X4_addKeyword_raises_score :
  forall (U : Unicode) (tbl : table) (c k : jsstring) (d : CategoryData),
    own tbl c = Some d ->
    exists d',
      own (fst (addKeyword tbl (VString c) (VString k))) c = Some d'
      /\ forall text norm,
           category_score text norm d'
           = (category_score text norm d
              + if includes norm (toLowerCase (toLowerCase k)) then 2 else 0)%Z.
Proof.
  intros U tbl c k d Hown.
  destruct (@addKeyword_known U tbl c k d Hown) as [tbl' [E [_ [Hown' _]]]].
  rewrite E. cbn [fst]. eexists. split; [exact Hown'|].
  intros text norm. rewrite !category_score_count. cbn [keywords patterns].
  rewrite count_app. unfold count at 2. cbn [filter].
  destruct (includes norm (toLowerCase (toLowerCase k))); cbn [length]; lia.
Qed.


Section CategorizerMore2.

Context {U : Unicode}.

Lemma confidence_zero (bestScore : Z) :
  (0 <= bestScore)%Z ->
  (Qmin (inject_Z bestScore / inject_Z maxPossibleScore) 1 == 0)%Q
  <-> bestScore = 0%Z.
Proof.
  intros Hnn. split.
  - intros H. destruct (Q.min_dec (inject_Z bestScore / inject_Z maxPossibleScore) 1)
      as [E|E]; rewrite E in H.
    + unfold Qeq, Qdiv, Qmult, Qinv, inject_Z, maxPossibleScore in H.
      simpl in H. lia.
    + discriminate.
  - intros ->. reflexivity.
Qed.

Lemma confidence_one (bestScore : Z) :
  (Qmin (inject_Z bestScore / inject_Z maxPossibleScore) 1 == 1)%Q
  <-> (15 <= bestScore)%Z.
Proof.
  rewrite Q.min_r_iff.
  unfold Qle, Qdiv, Qmult, Qinv, inject_Z, maxPossibleScore. simpl. lia.
Qed.

Lemma shape_own_patterns (t1 t2 : table) (k : jsstring) :
  shape t1 = shape t2 ->
  option_map patterns (own t1 k) = option_map patterns (own t2 k).
Proof.
  revert t2. induction t1 as [|[k1 d1] t1 IH]; intros [|[k2 d2] t2];
    simpl; try discriminate; [reflexivity|].
  intros [= -> _ Hp Hs]. destruct (JSString.eqb k2 k); simpl.
  - now rewrite Hp.
  - now apply IH.
Qed.

(** The search of a pattern only reads its source and the flags [i]
    and [m]. *)
Lemma exec_from_flags (re1 re2 : RegExp) (s : jsstring) :
  source re1 = source re2 -> ignoreCase re1 = ignoreCase re2 ->
  multiline re1 = multiline re2 ->
  forall p, exec_from re1 p s = exec_from re2 p s.
Proof.
  intros Hs Hi Hm. induction s as [|c s IH]; intros p; cbn [exec_from];
    rewrite Hs, Hi, Hm; [reflexivity|].
  now rewrite IH.
Qed.

(** The pattern [/@\w+/] of [praca] matches the texts that hold a
    mention. *)
Lemma mention_pattern_matches (text t : jsstring) :
  is_tag at_sign text t ->
  test (regexp "" (seq [lit "@"; plus word])) text = true.
Proof.
  intros Ht. apply tags_of_is_tag in Ht. unfold test.
  rewrite (@exec_from_flags _ (marker_re at_sign) text)
    by reflexivity.
  pose proof (@marker_exec U at_sign text eq_refl None) as H.
  destruct (exec_from (marker_re at_sign) None text); [reflexivity|].
  rewrite H in Ht. contradiction.
Qed.

Lemma tags_of_length (mk : code_unit) (s : jsstring) :
  length (tags_of mk s) <= count_occ N.eq_dec s mk.
Proof.
  induction s as [|c s IH]; [apply le_n|].
  cbn [tags_of count_occ]. destruct (N.eq_dec c mk) as [->|Hne].
  - rewrite N.eqb_refl. destruct (word_run s); cbn [length]; lia.
  - apply N.eqb_neq in Hne. rewrite Hne. now destruct (word_run s).
Qed.

Lemma first_occurrences_length (l : list jsstring) :
  length (first_occurrences l) <= length l.
Proof.
  induction l as [|x l IH]; [apply le_n|]. cbn [first_occurrences length].
  pose proof (filter_length_le (fun y => negb (JSString.eqb x y))
                (first_occurrences l)). lia.
Qed.

Lemma is_tag_word (mk : code_unit) (text t : jsstring) :
  is_tag mk text t ->
  t <> [] /\ forallb is_word t = true /\ includes text t = true.
Proof.
  intros [pre [post [-> [Hne [Hall _]]]]]. repeat split; try assumption.
  apply includes_substring. exists (pre ++ [mk]), post.
  now rewrite <- app_assoc.
Qed.

End CategorizerMore2.

(** X6. After any calls of [addKeyword] and for every non-empty string,
    the confidence [categorize] returns is 0 exactly when every
    category scores 0, and 1 exactly when some category scores 15 or
    more. *)
Theorem X6_confidence_extremes :
  forall (U : Unicode) (calls : list (value * value)) (text : jsstring),
    let score := category_score text (trim (toLowerCase text)) in
    text <> [] ->
    exists r,
      categorize (after calls) (VString text) = Normal r
      /\ ((Result.confidence r == 0)%Q
          <-> Forall (fun e => score (snd e) = 0%Z) (after calls))
      /\ ((Result.confidence r == 1)%Q
          <-> Exists (fun e => (15 <= score (snd e))%Z) (after calls)).
Proof.
  intros U calls text score Hne. destruct text as [|c s]; [congruence|].
  destruct (@categorize_best U calls c s)
    as [r [bs [Hcat [Hconf [Hnn [Hall Hbest]]]]]].
  fold score in Hall, Hbest.
  exists r. split; [exact Hcat|]. rewrite Hconf. split.
  - rewrite (confidence_zero Hnn). split.
    + intros ->. eapply Forall_impl; [|exact Hall]. cbn beta. intros e He.
      pose proof (category_score_nonneg (c :: s)
                    (trim (toLowerCase (c :: s))) (snd e)).
      fold (score (snd e)) in H. lia.
    + intros Hzero. destruct Hbest as [H|H]; [exact H|].
      apply Exists_exists in H. destruct H as [e [He <-]].
      rewrite Forall_forall in Hzero. now apply Hzero.
  - rewrite confidence_one. split.
    + intros Hbs. destruct Hbest as [H|H]; [lia|].
      eapply Exists_impl; [|exact H]. cbn beta. intros; lia.
    + intros H. apply Exists_exists in H. destruct H as [e [He Hsc]].
      rewrite Forall_forall in Hall. specialize (Hall e He). lia.
Qed.

(** X7. After any calls of [addKeyword], a text in which [extractTags]
    finds a mention is never left without signal by [categorize]: the
    first pattern of [praca] matches it, [praca] scores at least 3, and
    the confidence returned is at least 1/5. *)
Theorem X7_mention_scores_praca :
  forall (U : Unicode) (calls : list (value * value)) (text t : jsstring),
    is_tag at_sign text t ->
    exists r tags d,
      extractTags (VString text) = Normal tags
      /\ In t tags
      /\ categorize (after calls) (VString text) = Normal r
      /\ own (after calls) (js "praca") = Some d
      /\ (3 <= category_score text (trim (toLowerCase text)) d)%Z
      /\ (1 # 5 <= Result.confidence r)%Q.
Proof.
  intros U calls text t Ht.
  assert (Hne : text <> []).
  { destruct Ht as [pre [post [-> _]]]. now destruct pre. }
  destruct text as [|c s]; [congruence|].
  destruct (@categorize_best U calls c s)
    as [r [bs [Hcat [Hconf [Hnn [Hall _]]]]]].
  pose proof (@shape_own_patterns _ _ (js "praca") (after_shape calls)) as Hp.
  destruct (own (after calls) (js "praca")) as [d|] eqn:Hown;
    [|discriminate].
  assert (Hsc : (3 <= category_score (c :: s)
                        (trim (toLowerCase (c :: s))) d)%Z).
  { rewrite category_score_count.
    assert (Hpat : In (regexp "" (seq [lit "@"; plus word])) (patterns d)).
    { cbn [option_map] in Hp. injection Hp as Hp. rewrite Hp.
      now left. }
    pose proof (@count_In_pos _ (fun p => test p (c :: s)) _ _ Hpat
                  (mention_pattern_matches Ht)).
    pose proof (count_le_length
                  (fun k => includes (trim (toLowerCase (c :: s)))
                              (toLowerCase k)) (keywords d)).
    lia. }
  exists r. eexists. exists d.
  split; [apply extractTags_string|].
  split; [rewrite first_occurrences_In, in_app_iff, !tags_of_is_tag; now right|].
  split; [exact Hcat|]. split; [reflexivity|]. split; [exact Hsc|].
  rewrite Hconf. rewrite Forall_forall in Hall.
  specialize (Hall (js "praca", d) (own_Some_In _ _ Hown)). cbn [snd] in Hall.
  assert (H15 : (1 # 5 == inject_Z 3 / inject_Z 15)%Q) by reflexivity.
  rewrite H15. apply (confidence_at_least (n := 3)); lia.
Qed.

(** X8. Every tag [extractTags] returns for a string is a non-empty run
    of word characters that occurs in the text, and there are no more
    tags than the text has ['#'] and ['@'] characters. *)
Theorem X8_tags_are_words :
  forall (U : Unicode) (text : jsstring),
    exists tags,
      extractTags (VString text) = Normal tags
      /\ Forall (fun t => t <> [] /\ forallb is_word t = true
                          /\ includes text t = true) tags
      /\ length tags
         <= count_occ N.eq_dec text hash + count_occ N.eq_dec text at_sign.
Proof.
  intros U text. eexists. split; [apply extractTags_string|]. split.
  - apply Forall_forall. intros t Ht.
    rewrite first_occurrences_In, in_app_iff, !tags_of_is_tag in Ht.
    destruct Ht as [Ht|Ht]; exact (is_tag_word Ht).
  - pose proof (first_occurrences_length
                  (tags_of hash text ++ tags_of at_sign text)) as H.
    rewrite length_app in H.
    pose proof (tags_of_length hash text).
    pose proof (tags_of_length at_sign text). lia.
Qed.

(* ===================================================================== *)
(** ** The helpers of [UI] *)
(* ===================================================================== *)

Import JSON UI Storage App AppSpec.

Lemma trimStart_split (s : jsstring) :
  exists ws, s = ws ++ trimStart s.
Proof.
  induction s as [|c s [ws IH]]; [now exists []|].
  cbn [trimStart]. destruct (is_white_space c).
  - exists (c :: ws). simpl. now f_equal.
  - now exists [].
Qed.

Lemma trimStart_head (s : jsstring) :
  match trimStart s with [] => True | c :: _ => is_white_space c = false end.
Proof.
  induction s as [|c s IH]; [exact I|].
  cbn [trimStart]. destruct (is_white_space c) eqn:E; [exact IH | exact E].
Qed.

Lemma trimStart_fixed (s : jsstring) :
  match s with [] => True | c :: _ => is_white_space c = false end ->
  trimStart s = s.
Proof.
  destruct s as [|c s]; [reflexivity|]. intros H. cbn [trimStart].
  now rewrite H.
Qed.

Lemma trimStart_twice (s : jsstring) : trimStart (trimStart s) = trimStart s.
Proof. apply trimStart_fixed, trimStart_head. Qed.

Lemma trimEnd_split (s : jsstring) : exists ws, s = trimEnd s ++ ws.
Proof.
  unfold trimEnd. destruct (trimStart_split (rev s)) as [ws H].
  exists (rev ws). rewrite <- rev_app_distr, <- H. now rewrite rev_involutive.
Qed.

Lemma trimEnd_twice (s : jsstring) : trimEnd (trimEnd s) = trimEnd s.
Proof. unfold trimEnd. now rewrite rev_involutive, trimStart_twice. Qed.

Lemma trim_split (s : jsstring) : exists pre post, s = pre ++ trim s ++ post.
Proof.
  destruct (trimStart_split s) as [pre H].
  destruct (trimEnd_split (trimStart s)) as [post H'].
  exists pre, post. unfold trim. now rewrite <- H', <- H.
Qed.

Lemma trim_length (s : jsstring) : length (trim s) <= length s.
Proof.
  destruct (trim_split s) as [pre [post H]].
  rewrite H at 2. rewrite !length_app. lia.
Qed.

Lemma trim_twice (s : jsstring) : trim (trim s) = trim s.
Proof.
  unfold trim at 1.
  assert (H : trimStart (trim s) = trim s).
  { apply trimStart_fixed. unfold trim.
    destruct (trimEnd_split (trimStart s)) as [ws H].
    pose proof (trimStart_head s) as Hh.
    destruct (trimEnd (trimStart s)) as [|c t]; [exact I|].
    rewrite H in Hh. exact Hh. }
  rewrite H. unfold trim. apply trimEnd_twice.
Qed.

Lemma slice_prefix (s : jsstring) (n : Z) :
  (0 <= n < Z.of_nat (length s))%Z ->
  slice s 0 n = firstn (Z.to_nat n) s.
Proof.
  intros H. unfold slice. cbn [Z.ltb Z.compare].
  destruct (n <? 0)%Z eqn:E; [apply Z.ltb_lt in E; lia|].
  rewrite Z.min_l by lia. rewrite Z.min_l by lia.
  cbn [Z.to_nat skipn]. rewrite Z.sub_0_r, Z.max_l by lia. reflexivity.
Qed.

(** X9. For a limit that is not negative, [truncateText] returns a text
    no longer than the limit as it is, and cuts a longer one to a body
    followed by ["..."]: the body is a piece of the text of at most
    [maxLength] units with no white space at either end.  The result is
    never longer than [maxLength + 3]. *)
Theorem X9_truncateText_bounds :
  forall (text : jsstring) (maxLength : Z),
    (0 <= maxLength)%Z ->
    (Z.of_nat (length (truncateText text maxLength)) <= maxLength + 3)%Z
    /\ ((Z.of_nat (length text) <= maxLength)%Z ->
        truncateText text maxLength = text)
    /\ ((maxLength < Z.of_nat (length text))%Z ->
        exists body,
          truncateText text maxLength = body ++ js "..."
          /\ (Z.of_nat (length body) <= maxLength)%Z
          /\ includes text body = true
          /\ trimmed body).
Proof.
  intros text maxLength Hnn. unfold truncateText.
  destruct (Z.of_nat (length text) <=? maxLength)%Z eqn:E.
  - apply Z.leb_le in E. split; [lia|]. split; [reflexivity | lia].
  - apply Z.leb_gt in E. rewrite slice_prefix by lia.
    assert (Hlen : (Z.of_nat (length (trim (firstn (Z.to_nat maxLength) text)))
                    <= maxLength)%Z).
    { pose proof (trim_length (firstn (Z.to_nat maxLength) text)) as H.
      rewrite length_firstn in H. lia. }
    split; [|split; [lia|]].
    + rewrite length_app. change (length (js "...")) with 3. lia.
    + intros _. eexists. split; [reflexivity|]. split; [exact Hlen|]. split.
      * apply includes_substring.
        destruct (trim_split (firstn (Z.to_nat maxLength) text))
          as [pre [post H]].
        exists pre, (post ++ skipn (Z.to_nat maxLength) text).
        rewrite <- (firstn_skipn (Z.to_nat maxLength) text) at 1.
        rewrite H at 1. now rewrite <- !app_assoc.
      * apply trim_twice.
Qed.

(** X10. [formatDate] chooses its wording by the age of the date in
    milliseconds: under a minute, a date in the future included, "przed
    chwilą"; under an hour, the whole minutes, 1 to 59; under a day,
    the whole hours, 1 to 23; under a week, the whole days, 1 to 6; and
    only from a week on the date as the locale writes it. *)
Theorem X10_formatDate_buckets :
  forall (toLocaleDateString : Z -> Z -> jsstring) (now date : Z),
    let age := (now - date)%Z in
    let shown := formatDate toLocaleDateString now date in
    ((age < 60000)%Z -> shown = js "przed chwilą")
    /\ ((60000 <= age < 3600000)%Z ->
        exists m, (1 <= m <= 59)%Z
                  /\ (m * 60000 <= age < (m + 1) * 60000)%Z
                  /\ shown = Number_toString (Int m) ++ js " min temu")
    /\ ((3600000 <= age < 86400000)%Z ->
        exists h, (1 <= h <= 23)%Z
                  /\ (h * 3600000 <= age < (h + 1) * 3600000)%Z
                  /\ shown = Number_toString (Int h) ++ js " godz. temu")
    /\ ((86400000 <= age < 604800000)%Z ->
        exists d, (1 <= d <= 6)%Z
                  /\ (d * 86400000 <= age < (d + 1) * 86400000)%Z
                  /\ shown = Number_toString (Int d) ++ js " dni temu")
    /\ ((604800000 <= age)%Z -> shown = toLocaleDateString date now).
Proof.
  intros loc now date age shown. subst shown. unfold formatDate. fold age.
  pose proof (Z.div_mod age 60000 ltac:(lia)) as Hm.
  pose proof (Z.mod_pos_bound age 60000 ltac:(lia)) as Hm'.
  pose proof (Z.div_mod age 3600000 ltac:(lia)) as Hh.
  pose proof (Z.mod_pos_bound age 3600000 ltac:(lia)) as Hh'.
  pose proof (Z.div_mod age 86400000 ltac:(lia)) as Hd.
  pose proof (Z.mod_pos_bound age 86400000 ltac:(lia)) as Hd'.
  repeat split; intros H;
    repeat match goal with
           | |- context [(?a <? ?b)%Z] => destruct (Z.ltb_spec a b); try lia
           end;
    try reflexivity.
  - exists (age / 60000)%Z. repeat split; try lia.
  - exists (age / 3600000)%Z. repeat split; try lia.
  - exists (age / 86400000)%Z. repeat split; try lia.
Qed.

(* ===================================================================== *)
(** ** [Storage] *)
(* ===================================================================== *)

Lemma own_put (A : Type) (o : object A) (k : jsstring) (a : A) :
  own (put o k a) k = Some a.
Proof.
  induction o as [|[k0 b] o IH]; simpl.
  - now rewrite eqb_refl.
  - destruct (JSString.eqb k0 k) eqn:E; simpl; now rewrite E.
Qed.

Lemma own_remove_other (A : Type) (o : object A) (k k' : jsstring) :
  k' <> k -> own (remove o k) k' = own o k'.
Proof.
  intros Hne. induction o as [|[k0 b] o IH]; simpl; [reflexivity|].
  destruct (JSString.eqb k0 k) eqn:E; simpl.
  - apply eqb_eq in E. subst k0.
    apply not_eq_sym, eqb_neq in Hne. now rewrite Hne.
  - now rewrite IH.
Qed.

Lemma own_store_property_other (o : object json) (k k' : jsstring) (v : value) :
  k' <> k -> own (store_property o k v) k' = own o k'.
Proof.
  intros Hne. unfold store_property. destruct (stored v).
  - now apply own_put_other.
  - now apply own_remove_other.
Qed.

Lemma own_store_property_string (o : object json) (k s : jsstring) :
  own (store_property o k (VString s)) k = Some (JString s).
Proof. apply own_put. Qed.

Lemma not_null_member (n : json) (key : jsstring) :
  n <> JNull ->
  member n key
  = Normal (match n with JObject o => own o key | _ => None end).
Proof. destruct n; try reflexivity. congruence. Qed.

Lemma member_id (id : value) (n : json) :
  n <> JNull ->
  exists a, member n (js "id") = Normal a /\ strict_equals a id = has_id id n.
Proof.
  intros H. rewrite (not_null_member _ H). eexists. split; [reflexivity|].
  now destruct n.
Qed.

Lemma filter_out_spec (id : value) (notes : list json) :
  ~ In JNull notes ->
  filter_out id notes = Normal (filter (fun n => negb (has_id id n)) notes).
Proof.
  induction notes as [|n notes IH]; intros Hnn; [reflexivity|].
  cbn [filter_out filter].
  destruct (@member_id id n) as [a [Ha Hid]];
    [intros ->; apply Hnn; now left|].
  rewrite Ha, IH by (intros H; apply Hnn; now right).
  rewrite Hid. now destruct (has_id id n).
Qed.

Lemma findIndex_none (id : value) (notes : list json) :
  ~ In JNull notes ->
  (forall n, In n notes -> has_id id n = false) ->
  findIndex id notes = Normal None.
Proof.
  induction notes as [|n notes IH]; intros Hnn Hno; [reflexivity|].
  cbn [findIndex].
  destruct (@member_id id n) as [a [Ha Hid]];
    [intros ->; apply Hnn; now left|].
  rewrite Ha, Hid, (Hno n (or_introl eq_refl)).
  rewrite IH; [reflexivity | intros H; apply Hnn; now right |].
  intros m Hm. apply Hno. now right.
Qed.

Lemma findIndex_found (id : value) (before after_ : list json) (n : json) :
  ~ In JNull before ->
  (forall m, In m before -> has_id id m = false) ->
  n <> JNull -> has_id id n = true ->
  findIndex id (before ++ n :: after_) = Normal (Some (length before)).
Proof.
  induction before as [|m before IH]; intros Hnn Hno Hn Hid.
  - cbn [app findIndex length].
    destruct (@member_id id n Hn) as [a [Ha Ha']].
    now rewrite Ha, Ha', Hid.
  - cbn [app findIndex length].
    destruct (@member_id id m) as [a [Ha Ha']];
      [intros ->; apply Hnn; now left|].
    rewrite Ha, Ha', (Hno m (or_introl eq_refl)).
    rewrite IH; try assumption; [reflexivity | intros H; apply Hnn; now right |].
    intros m' Hm'. apply Hno. now right.
Qed.

Lemma findIndex_nth (id : value) (notes : list json) :
  forall i, findIndex id notes = Normal (Some i) ->
            exists n, nth_error notes i = Some n /\ n <> JNull.
Proof.
  induction notes as [|n notes IH]; intros i; [discriminate|].
  cbn [findIndex]. destruct (member n (js "id")) as [a|] eqn:Hm; [|discriminate].
  assert (Hn : n <> JNull) by (intros ->; discriminate).
  destruct (strict_equals a id).
  - intros [= <-]. now exists n.
  - destruct (findIndex id notes) as [[j|]|] eqn:E; try discriminate.
    intros [= <-]. exact (IH j eq_refl).
Qed.

Lemma findIndex_objects (id : value) (notes : list json) :
  Forall is_object notes -> exists r, findIndex id notes = Normal r.
Proof.
  induction 1 as [|n notes [o ->] _ [r IH]]; [now exists None|].
  cbn [findIndex member]. destruct (strict_equals (own o (js "id")) id).
  - now exists (Some 0).
  - rewrite IH. destruct r; eexists; reflexivity.
Qed.

Lemma objects_not_null (notes : list json) :
  Forall is_object notes -> ~ In JNull notes.
Proof.
  intros H Hin. rewrite Forall_forall in H.
  destruct (H _ Hin) as [o Ho]. discriminate.
Qed.

Lemma nth_error_middle (A : Type) (l1 l2 : list A) (x : A) :
  nth_error (l1 ++ x :: l2) (length l1) = Some x.
Proof. induction l1; simpl; [reflexivity | assumption]. Qed.

Lemma replace_middle (l1 l2 : list json) (x y : json) :
  replace (l1 ++ x :: l2) (length l1) y = l1 ++ y :: l2.
Proof. induction l1 as [|a l1 IH]; simpl; [reflexivity | now rewrite IH]. Qed.

Lemma replace_objects (notes : list json) (i : nat) (o : object json) :
  Forall is_object notes -> Forall is_object (replace notes i (JObject o)).
Proof.
  intros H. revert i. induction H as [|n notes Hn H IH]; intros i; simpl.
  - constructor.
  - destruct i; constructor; try assumption; [now exists o | apply IH].
Qed.

Section StorageFacts.

Context {U : Unicode}.
Variable accepts : json -> bool.

Lemma save_cases (ls : item) (notes : json) :
  (accepts notes = true /\ save accepts ls notes = (Text notes, true))
  \/ (accepts notes = false /\ save accepts ls notes = (ls, false)).
Proof. unfold save. destruct (accepts notes); [left | right]; now split. Qed.

(** What [delete] does to a store that holds an array without [null]. *)
Lemma delete_array (ls : item) (id : value) (notes : list json) :
  getAll ls = JArray notes -> ~ In JNull notes ->
  delete accepts ls id
  = (fst (save accepts ls (JArray (filter (fun n => negb (has_id id n)) notes))),
     Normal (snd (save accepts ls
                    (JArray (filter (fun n => negb (has_id id n)) notes))))).
Proof.
  intros Hget Hnn. unfold delete. rewrite Hget. cbn [this_array].
  rewrite filter_out_spec by assumption.
  now destruct (save accepts ls _).
Qed.

(** What [update] does when the first note with the identifier is an
    object. *)
Lemma update_object (tbl : table) (now : Z) (ls : item) (id newContent : value)
    (before after_ : list json) (o : object json) (r : Result.t) :
  getAll ls = JArray (before ++ JObject o :: after_) ->
  ~ In JNull before ->
  (forall m, In m before -> has_id id m = false) ->
  has_id id (JObject o) = true ->
  categorize tbl newContent = Normal r ->
  let o' :=
    store_property
      (store_property
         (store_property
            (store_property o (js "content") newContent)
            (js "updatedAt") (VNumber (Int now)))
         (js "category") (VString (Result.category r)))
      (js "categoryIcon") (Result.icon r) in
  update accepts tbl now ls id newContent
  = (fst (save accepts ls (JArray (before ++ JObject o' :: after_))),
     Normal (snd (save accepts ls (JArray (before ++ JObject o' :: after_))))).
Proof.
  intros Hget Hnn Hno Hid Hcat o'. unfold update. rewrite Hget.
  cbn [this_array].
  rewrite findIndex_found by (assumption || discriminate).
  rewrite nth_error_middle, Hcat, replace_middle. fold o'.
  now destruct (save accepts ls _).
Qed.

End StorageFacts.

(** X11. On a store that holds an array, no item or an unreadable one
    counting as the empty array, [add] puts the note in front: when the
    host takes the new text, [add] returns [true] and [getAll] then
    returns the note followed by the old notes; when it does not, [add]
    returns [false] and the store is as before. *)
Theorem X11_add_puts_first :
  forall (accepts : json -> bool) (ls : item) (note : json)
         (notes : list json),
    getAll ls = JArray notes ->
    (accepts (JArray (note :: notes)) = true ->
     exists ls',
       add accepts ls note = (ls', Normal true)
       /\ getAll ls' = JArray (note :: notes))
    /\ (accepts (JArray (note :: notes)) = false ->
        add accepts ls note = (ls, Normal false)).
Proof.
  intros accepts ls note notes Hget. unfold add, save. rewrite Hget.
  cbn [this_array]. split; intros H; rewrite H.
  - now exists (Text (JArray (note :: notes))).
  - reflexivity.
Qed.

(** X12. When the item holds JSON that is not an array ([null], a
    number, a string, an object), [getAll] returns that value and
    [add], [update], [delete] and [getCategories] all throw a
    [TypeError]; the store is left as it is. *)
Theorem X12_not_an_array :
  forall (U : Unicode) (accepts : json -> bool) (tbl : table) (now : Z)
         (ls : item) (note : json) (id newContent : value),
    (forall notes, getAll ls <> JArray notes) ->
    add accepts ls note = (ls, Throw TypeError)
    /\ update accepts tbl now ls id newContent = (ls, Throw TypeError)
    /\ delete accepts ls id = (ls, Throw TypeError)
    /\ getCategories ls = Throw TypeError.
Proof.
  intros U accepts tbl now ls note id newContent H.
  unfold add, update, delete, getCategories.
  destruct (getAll ls) as [| | | |l|]; try (repeat split; reflexivity).
  now destruct (H l).
Qed.

(** X13. A store that holds an array of objects stays one: after any
    calls of [addKeyword], [add] of an object, [update] and [delete]
    with any arguments return a boolean without throwing and leave an
    array of objects behind, and [getCategories] returns a list. *)
Theorem X13_store_stays_healthy :
  forall (U : Unicode) (accepts : json -> bool)
         (calls : list (value * value)) (ls : item),
    healthy ls ->
    (forall o,
        (exists ok, snd (add accepts ls (JObject o)) = Normal ok)
        /\ healthy (fst (add accepts ls (JObject o))))
    /\ (forall now id newContent,
          (exists ok, snd (update accepts (after calls) now ls id newContent)
                      = Normal ok)
          /\ healthy (fst (update accepts (after calls) now ls id newContent)))
    /\ (forall id,
          (exists ok, snd (delete accepts ls id) = Normal ok)
          /\ healthy (fst (delete accepts ls id)))
    /\ exists categories, getCategories ls = Normal categories.
Proof.
  intros U accepts calls ls Hh. pose proof Hh as [notes [Hget Hobj]].
  assert (Hsave : forall l, Forall is_object l ->
            (exists ok, snd (save accepts ls (JArray l)) = ok)
            /\ healthy (fst (save accepts ls (JArray l)))).
  { intros l Hl. split; [eexists; reflexivity|].
    destruct (save_cases accepts ls (JArray l)) as [[_ E]|[_ E]]; rewrite E;
      [now exists l | exact Hh]. }
  repeat split.
  - unfold add. rewrite Hget. cbn [this_array].
    destruct (save accepts ls _). eexists. reflexivity.
  - unfold add. rewrite Hget. cbn [this_array].
    destruct (Hsave (JObject o :: notes)) as [_ H];
      [constructor; [now exists o | assumption]|].
    now destruct (save accepts ls _).
  - unfold update. rewrite Hget. cbn [this_array].
    destruct (findIndex_objects id Hobj) as [[i|] Hi]; rewrite Hi;
      [|now exists false].
    destruct (findIndex_nth _ _ Hi) as [n [Hn _]]. rewrite Hn.
    rewrite Forall_forall in Hobj.
    destruct (Hobj n (nth_error_In _ _ Hn)) as [o ->].
    destruct (categorize_in_table U calls newContent) as [r [_ [Hcat _]]].
    rewrite Hcat. destruct (save accepts ls _). eexists. reflexivity.
  - unfold update. rewrite Hget. cbn [this_array].
    destruct (findIndex_objects id Hobj) as [[i|] Hi]; rewrite Hi;
      [|exact Hh].
    destruct (findIndex_nth _ _ Hi) as [n [Hn _]]. rewrite Hn.
    pose proof Hobj as Hobj'. rewrite Forall_forall in Hobj'.
    destruct (Hobj' n (nth_error_In _ _ Hn)) as [o ->].
    destruct (categorize_in_table U calls newContent) as [r [_ [Hcat _]]].
    rewrite Hcat.
    match goal with
    | |- context [save accepts ls (JArray ?l)] =>
        destruct (Hsave l) as [_ H]; [now apply replace_objects|];
        now destruct (save accepts ls (JArray l))
    end.
  - rewrite (@delete_array accepts ls id notes Hget (objects_not_null Hobj)).
    eexists. reflexivity.
  - rewrite (@delete_array accepts ls id notes Hget (objects_not_null Hobj)).
    cbn [fst]. apply Hsave. apply Forall_forall. intros n Hn.
    apply filter_In in Hn. rewrite Forall_forall in Hobj. now apply Hobj.
  - unfold getCategories. rewrite Hget. cbn [this_array].
    clear Hget Hh Hsave. generalize (@nil (option json)).
    induction Hobj as [|n l [o ->] _ IH]; intros acc; cbn [forEach_add member].
    + now exists acc.
    + apply IH.
Qed.

(** X14. On a store that holds an array without [null], [delete]
    writes the notes that [n.id === id] does not select, in their
    order; when the host takes the text it returns [true], no remaining
    note has the identifier, a list in which no note had it is written
    back unchanged, and deleting the same identifier again changes
    nothing. *)
Theorem X14_delete_removes :
  forall (accepts : json -> bool) (ls : item) (id : value)
         (notes : list json),
    let kept := filter (fun n => negb (has_id id n)) notes in
    getAll ls = JArray notes ->
    ~ In JNull notes ->
    accepts (JArray kept) = true ->
    exists ls',
      delete accepts ls id = (ls', Normal true)
      /\ getAll ls' = JArray kept
      /\ (forall n, In n kept <-> In n notes /\ has_id id n = false)
      /\ ((forall n, In n notes -> has_id id n = false) -> kept = notes)
      /\ delete accepts ls' id = (ls', Normal true).
Proof.
  intros accepts ls id notes kept Hget Hnn Hacc.
  exists (Text (JArray kept)).
  assert (Hkept : forall n, In n kept <-> In n notes /\ has_id id n = false).
  { intros n. unfold kept. rewrite filter_In, negb_true_iff. tauto. }
  split; [|split; [reflexivity|split; [exact Hkept|split]]].
  - rewrite (@delete_array accepts ls id notes Hget Hnn). fold kept.
    unfold save. now rewrite Hacc.
  - intros Hno. unfold kept. apply forallb_filter_id. apply forallb_forall.
    intros n Hn. now rewrite (Hno n Hn).
  - assert (Hnn' : ~ In JNull kept) by (intros H; apply Hkept in H; tauto).
    rewrite (@delete_array accepts (Text (JArray kept)) id kept eq_refl Hnn').
    assert (E : filter (fun n => negb (has_id id n)) kept = kept).
    { apply forallb_filter_id. apply forallb_forall. intros n Hn.
      apply Hkept in Hn. destruct Hn as [_ Hn]. now rewrite Hn. }
    rewrite E. unfold save. now rewrite Hacc.
Qed.

(** X15. On a store that holds an array without [null] in which no
    note has the identifier, [update] returns [false] and writes
    nothing, whatever the table and the new content. *)
Theorem X15_update_unknown_id :
  forall (U : Unicode) (accepts : json -> bool) (tbl : table) (now : Z)
         (ls : item) (id newContent : value) (notes : list json),
    getAll ls = JArray notes ->
    ~ In JNull notes ->
    (forall n, In n notes -> has_id id n = false) ->
    update accepts tbl now ls id newContent = (ls, Normal false).
Proof.
  intros U accepts tbl now ls id newContent notes Hget Hnn Hno.
  unfold update. rewrite Hget. cbn [this_array].
  now rewrite findIndex_none.
Qed.

(** X16. After any calls of [addKeyword], [update] with a string as new
    content changes the first note that has the identifier, when it is
    an object, and no other note: the note gets the new content, the
    time of the call, and the category and icon that [categorize]
    returns for the new content; every other property of the note,
    its identifier, its confidence and its tags among them, stays as
    it was.  The list is written when the host takes it, and [update]
    returns whether it was. *)
Theorem X16_update_edits_first_match :
  forall (U : Unicode) (accepts : json -> bool)
         (calls : list (value * value)) (now : Z) (ls : item) (id : value)
         (s : jsstring) (before after_ : list json) (o : object json),
    getAll ls = JArray (before ++ JObject o :: after_) ->
    ~ In JNull before ->
    (forall m, In m before -> has_id id m = false) ->
    has_id id (JObject o) = true ->
    exists r ico o',
      categorize (after calls) (VString s) = Normal r
      /\ Result.icon r = VString ico
      /\ update accepts (after calls) now ls id (VString s)
         = (if accepts (JArray (before ++ JObject o' :: after_))
            then (Text (JArray (before ++ JObject o' :: after_)), Normal true)
            else (ls, Normal false))
      /\ own o' (js "content") = Some (JString s)
      /\ own o' (js "updatedAt") = Some (JNumber (inject_Z now))
      /\ own o' (js "category") = Some (JString (Result.category r))
      /\ own o' (js "categoryIcon") = Some (JString ico)
      /\ forall k, ~ In k edited_keys -> own o' k = own o k.
Proof.
  intros U accepts calls now ls id s before after_ o Hget Hnn Hno Hid.
  destruct (categorize_in_table U calls (VString s)) as [r [d [Hcat [_ [_ Hico]]]]].
  pose (o' :=
    store_property
      (store_property
         (store_property
            (store_property o (js "content") (VString s))
            (js "updatedAt") (VNumber (Int now)))
         (js "category") (VString (Result.category r)))
      (js "categoryIcon") (Result.icon r)).
  exists r, (icon d), o'. split; [exact Hcat|]. split; [exact Hico|].
  split.
  - rewrite (@update_object U accepts (after calls) now ls id (VString s)
               before after_ o r Hget Hnn Hno Hid Hcat).
    fold o'. unfold save.
    destruct (accepts (JArray (before ++ JObject o' :: after_))); reflexivity.
  - unfold o'. rewrite Hico. repeat split.
    + rewrite !own_store_property_other by discriminate.
      apply own_store_property_string.
    + rewrite !own_store_property_other by discriminate. apply own_put.
    + rewrite own_store_property_other by discriminate.
      apply own_store_property_string.
    + apply own_store_property_string.
    + intros k Hk. unfold edited_keys in Hk.
      rewrite !own_store_property_other; [reflexivity| | | |];
        intros ->; apply Hk; simpl; tauto.
Qed.

Lemma Set_add_strings (seen : list jsstring) (c : jsstring) :
  Storage.Set_add (map some_string seen) (some_string c)
  = map some_string (JS.Set_add seen c).
Proof.
  unfold Storage.Set_add, JS.Set_add, Set_has.
  assert (E : existsb (same_value_zero (some_string c)) (map some_string seen)
              = existsb (JSString.eqb c) seen).
  { induction seen as [|x seen IH]; [reflexivity|]. simpl. now rewrite IH. }
  rewrite E. destruct (existsb (JSString.eqb c) seen); [reflexivity|].
  now rewrite map_app.
Qed.

Lemma forEach_add_strings (os : list (object json)) (cats : list jsstring) :
  map (fun o => own o (js "category")) os = map some_string cats ->
  forall seen,
    forEach_add (map JObject os) (map some_string seen)
    = Normal (map some_string (fold_left JS.Set_add cats seen)).
Proof.
  revert cats. induction os as [|o os IH]; intros [|c cats] H seen;
    try discriminate; [reflexivity|].
  cbn [map] in H. injection H as Ho H.
  cbn [map forEach_add member fold_left]. rewrite Ho.
  fold (some_string c). rewrite Set_add_strings. now apply IH.
Qed.

(** X17. On a store that holds an array of objects whose categories
    are strings, [getCategories] returns these categories without
    repetition, each at the place of its first note. *)
Theorem X17_getCategories_first_occurrences :
  forall (ls : item) (os : list (object json)) (cats : list jsstring),
    getAll ls = JArray (map JObject os) ->
    map (fun o => own o (js "category")) os
    = map (fun c => Some (JString c)) cats ->
    getCategories ls
    = Normal (map (fun c => Some (JString c)) (first_occurrences cats))
    /\ NoDup (first_occurrences cats)
    /\ forall c, In c (first_occurrences cats) <-> In c cats.
Proof.
  intros ls os cats Hget Hcats. split; [|split].
  - unfold getCategories. rewrite Hget. cbn [this_array].
    pose proof (@forEach_add_strings os cats Hcats []) as H.
    cbn [map] in H. rewrite H. unfold some_string.
    fold (new_Set cats). now rewrite new_Set_first_occurrences.
  - apply first_occurrences_NoDup.
  - intros c. apply first_occurrences_In.
Qed.

(** X18. [add], [update] and [delete] change the store only by a
    write that the host takes, and return [true] exactly then: in
    every other case, a [false] or an exception, the store is as it
    was before the call. *)
Theorem X18_store_changes_only_on_true :
  forall (U : Unicode) (accepts : json -> bool) (tbl : table) (now : Z)
         (ls : item) (note : json) (id newContent : value),
    let written (r : item * completion bool) :=
      (snd r = Normal true
       /\ exists v, fst r = Text v /\ accepts v = true)
      \/ (snd r <> Normal true /\ fst r = ls) in
    written (add accepts ls note)
    /\ written (update accepts tbl now ls id newContent)
    /\ written (delete accepts ls id).
Proof.
  intros U accepts tbl now ls note id newContent written.
  assert (Hsave : forall notes,
            written (let (ls', ok) := save accepts ls notes in (ls', Normal ok))).
  { intros notes. unfold save. destruct (accepts notes) eqn:E.
    - left. split; [reflexivity|]. now exists notes.
    - right. split; [discriminate | reflexivity]. }
  assert (Hthrow : forall e, written (ls, Throw e))
    by (intros e; right; split; [discriminate | reflexivity]).
  assert (Hfalse : written (ls, Normal false))
    by (right; split; [discriminate | reflexivity]).
  unfold add, update, delete. repeat split.
  - destruct (this_array (getAll ls)); [apply Hsave | apply Hthrow].
  - destruct (this_array (getAll ls)) as [notes|]; [|apply Hthrow].
    destruct (findIndex id notes) as [[i|]|]; [| apply Hfalse | apply Hthrow].
    destruct (nth_error notes i) as [[| | | | |]|]; try apply Hthrow;
      (destruct (categorize tbl newContent); [apply Hsave | apply Hthrow]).
  - destruct (this_array (getAll ls)) as [notes|]; [|apply Hthrow].
    destruct (filter_out id notes); [apply Hsave | apply Hthrow].
Qed.

(* ===================================================================== *)
(** ** [App.saveThought] *)
(* ===================================================================== *)

Section SaveThoughtFacts.

Context {U : Unicode}.
Variable accepts : json -> bool.

Lemma strict_equals_string (a b : jsstring) :
  strict_equals (Some (JString a)) (VString b) = JSString.eqb a b.
Proof. reflexivity. Qed.

(** The note as it is stored, for an icon that is a string. *)
Lemma note_properties (id content ico : jsstring) (r : Result.t)
    (tags : list jsstring) (createdAt updatedAt : Z) :
  Result.icon r = VString ico ->
  note id content r tags createdAt updatedAt
  = JObject [(js "id", JString id);
             (js "content", JString content);
             (js "category", JString (Result.category r));
             (js "categoryIcon", JString ico);
             (js "confidence", JNumber (Result.confidence r));
             (js "tags", JArray (map JString tags));
             (js "createdAt", JNumber (inject_Z createdAt));
             (js "updatedAt", JNumber (inject_Z updatedAt))].
Proof. intros H. unfold note, store_property. rewrite H. reflexivity. Qed.

(** [saveThought] on an input that is not blank, after any calls of
    [addKeyword] and on a store that holds an array. *)
Lemma saveThought_note (calls : list (value * value)) (ls : item)
    (value id : jsstring) (createdAt updatedAt : Z) (notes : list json) :
  getAll ls = JArray notes ->
  trim value <> [] ->
  exists r d tags,
    categorize (after calls) (VString (trim value)) = Normal r
    /\ own (after calls) (Result.category r) = Some d
    /\ Result.icon r = VString (icon d)
    /\ extractTags (VString (trim value)) = Normal tags
    /\ let n := note id (trim value) r tags createdAt updatedAt in
       saveThought accepts (after calls) ls value id createdAt updatedAt
       = Normal (if accepts (JArray (n :: notes))
                 then {| store := Text (JArray (n :: notes));
                         feedback := js "Zapisano: " ++ Result.category r;
                         cleared := true |}
                 else {| store := ls;
                         feedback := js "Błąd zapisu";
                         cleared := false |}).
Proof.
  intros Hget Hne.
  destruct (categorize_in_table U calls (VString (trim value)))
    as [r [d [Hcat [_ [Hown Hico]]]]].
  exists r, d. eexists. split; [exact Hcat|]. split; [exact Hown|].
  split; [exact Hico|]. split; [apply extractTags_string|].
  cbn zeta. unfold saveThought.
  destruct (trim value) as [|c s] eqn:E; [congruence|].
  cbn [ToBoolean negb]. rewrite Hcat, extractTags_string.
  unfold add, save. rewrite Hget. cbn [this_array].
  now destruct (accepts _).
Qed.

End SaveThoughtFacts.

(** X19. After any calls of [addKeyword] and on a store that holds an
    array: for an input that is blank after trimming, [saveThought]
    stores nothing, asks for text and keeps the input; for any other
    input it adds one note, built from the trimmed input and from what
    [categorize] and [extractTags] return for it, in front of the
    others, reports the category and clears the input when the host
    takes the text, and reports the failure and keeps store and input
    when it does not. *)
Theorem X19_saveThought_outcome :
  forall (U : Unicode) (accepts : json -> bool)
         (calls : list (value * value)) (ls : item) (value id : jsstring)
         (createdAt updatedAt : Z) (notes : list json),
    getAll ls = JArray notes ->
    (trim value = [] ->
     saveThought accepts (after calls) ls value id createdAt updatedAt
     = Normal {| store := ls;
                 feedback := js "Wpisz coś najpierw";
                 cleared := false |})
    /\ (trim value <> [] ->
        exists r tags,
          categorize (after calls) (VString (trim value)) = Normal r
          /\ extractTags (VString (trim value)) = Normal tags
          /\ let n := note id (trim value) r tags createdAt updatedAt in
             saveThought accepts (after calls) ls value id createdAt updatedAt
             = Normal
                 (if accepts (JArray (n :: notes))
                  then {| store := Text (JArray (n :: notes));
                          feedback := js "Zapisano: " ++ Result.category r;
                          cleared := true |}
                  else {| store := ls;
                          feedback := js "Błąd zapisu";
                          cleared := false |})).
Proof.
  intros U accepts calls ls value id createdAt updatedAt notes Hget. split.
  - intros E. unfold saveThought. now rewrite E.
  - intros Hne.
    destruct (@saveThought_note U accepts calls ls value id createdAt
                updatedAt notes Hget Hne)
      as [r [d [tags [Hcat [_ [_ [Htags Hsave]]]]]]].
    now exists r, tags.
Qed.


(** X21. After any calls of [addKeyword], on a store that holds an
    array without [null] in which no note has the new identifier, and
    with a host that takes every text: saving a thought and then
    deleting its identifier leaves the notes that were there before. *)
Theorem X21_save_then_delete :
  forall (U : Unicode) (accepts : json -> bool)
         (calls : list (value * value)) (ls : item) (value id : jsstring)
         (createdAt updatedAt : Z) (notes : list json),
    getAll ls = JArray notes ->
    ~ In JNull notes ->
    (forall n, In n notes -> has_id (VString id) n = false) ->
    trim value <> [] ->
    (forall v, accepts v = true) ->
    exists out ls',
      saveThought accepts (after calls) ls value id createdAt updatedAt
      = Normal out
      /\ cleared out = true
      /\ (exists n, getAll (store out) = JArray (n :: notes))
      /\ delete accepts (store out) (VString id) = (ls', Normal true)
      /\ getAll ls' = JArray notes.
Proof.
  intros U accepts calls ls value id createdAt updatedAt notes
         Hget Hnn Hfresh Hne Hacc.
  destruct (@saveThought_note U accepts calls ls value id createdAt
              updatedAt notes Hget Hne)
    as [r [d [tags [_ [_ [Hico [_ Hsave]]]]]]].
  cbn zeta in Hsave. rewrite Hacc in Hsave.
  rewrite (@note_properties id (trim value) (icon d) r tags createdAt
             updatedAt Hico) in Hsave.
  eexists. exists (Text (JArray notes)).
  split; [exact Hsave|]. cbn [store cleared].
  split; [reflexivity|]. split; [eexists; reflexivity|].
  split; [|reflexivity].
  match goal with
  | |- context [delete accepts (Text (JArray ?l)) _] =>
      rewrite (@delete_array accepts (Text (JArray l)) (VString id) l eq_refl)
  end.
  - cbn [filter has_id own strict_equals].
    change (JSString.eqb (js "id") (js "id")) with true. cbn iota.
    rewrite strict_equals_string, eqb_refl. cbn [negb].
    assert (E : filter (fun n => negb (has_id (VString id) n)) notes = notes).
    { apply forallb_filter_id. apply forallb_forall. intros n Hn.
      now rewrite (Hfresh n Hn). }
    rewrite E. unfold save. now rewrite Hacc.
  - intros [H|H]; [discriminate | contradiction].
Qed.

(** X22. After any calls of [addKeyword] and with a host that takes
    every text: when a thought is saved and then updated with a new
    string, the note carries the new content, the category of the new
    content and the time of the update, but still the confidence and
    the tags that were computed for the first content. *)
Theorem X22_update_keeps_confidence_and_tags :
  forall (U : Unicode) (accepts : json -> bool)
         (calls : list (value * value)) (ls : item)
         (value id newContent : jsstring) (createdAt updatedAt now : Z)
         (notes : list json),
    getAll ls = JArray notes ->
    trim value <> [] ->
    (forall v, accepts v = true) ->
    exists out r1 tags1 r2 o' ls',
      saveThought accepts (after calls) ls value id createdAt updatedAt
      = Normal out
      /\ categorize (after calls) (VString (trim value)) = Normal r1
      /\ extractTags (VString (trim value)) = Normal tags1
      /\ categorize (after calls) (VString newContent) = Normal r2
      /\ update accepts (after calls) now (store out) (VString id)
           (VString newContent)
         = (ls', Normal true)
      /\ getAll ls' = JArray (JObject o' :: notes)
      /\ own o' (js "id") = Some (JString id)
      /\ own o' (js "content") = Some (JString newContent)
      /\ own o' (js "category") = Some (JString (Result.category r2))
      /\ own o' (js "updatedAt") = Some (JNumber (inject_Z now))
      /\ own o' (js "createdAt") = Some (JNumber (inject_Z createdAt))
      /\ own o' (js "confidence") = Some (JNumber (Result.confidence r1))
      /\ own o' (js "tags") = Some (JArray (map JString tags1)).
Proof.
  intros U accepts calls ls value id newContent createdAt updatedAt now notes
         Hget Hne Hacc.
  destruct (@saveThought_note U accepts calls ls value id createdAt
              updatedAt notes Hget Hne)
    as [r1 [d1 [tags1 [Hcat1 [_ [Hico1 [Htags1 Hsave]]]]]]].
  cbn zeta in Hsave. rewrite Hacc in Hsave.
  rewrite (@note_properties id (trim value) (icon d1) r1 tags1 createdAt
             updatedAt Hico1) in Hsave.
  destruct (categorize_in_table U calls (VString newContent))
    as [r2 [d2 [Hcat2 [_ [_ Hico2]]]]].
  match type of Hsave with
  | _ = Normal {| store := Text (JArray (JObject ?o :: _)) |} =>
      pose (o0 := o)
  end.
  pose (o' :=
    store_property
      (store_property
         (store_property
            (store_property o0 (js "content") (VString newContent))
            (js "updatedAt") (VNumber (Int now)))
         (js "category") (VString (Result.category r2)))
      (js "categoryIcon") (Result.icon r2)).
  eexists. exists r1, tags1, r2, o', (Text (JArray (JObject o' :: notes))).
  split; [exact Hsave|]. split; [exact Hcat1|]. split; [exact Htags1|].
  split; [exact Hcat2|]. cbn [store]. split.
  - rewrite (@update_object U accepts (after calls) now
               (Text (JArray (JObject o0 :: notes))) (VString id)
               (VString newContent) [] notes o0 r2 eq_refl).
    + fold o'. cbn [app]. unfold save. now rewrite Hacc.
    + intros [].
    + intros m [].
    + cbn [has_id o0 own]. change (JSString.eqb (js "id") (js "id")) with true.
      cbn iota. rewrite strict_equals_string. apply eqb_refl.
    + exact Hcat2.
  - split; [reflexivity|]. unfold o'. rewrite Hico2.
    repeat split;
      repeat (rewrite own_store_property_other by discriminate);
      try apply own_store_property_string; try apply own_put;
      reflexivity.
Qed.

(* ===================================================================== *)
(** ** The further properties at concrete inputs *)
(* ===================================================================== *)

Section MoreWitnesses.

Import Sample.

Existing Instance Latin.unicode.

Lemma X2_witness :
  exists tbl',
    addKeyword small_table (VString (js "a")) (VString (js "Y"))
    = (tbl', Normal tt)
    /\ keys tbl' = keys small_table.
Proof.
  destruct (@X2_addKeyword_appends Latin.unicode small_table (js "a") (js "Y")
              one_category eq_refl) as [tbl' [H1 [H2 _]]].
  now exists tbl'.
Defined.

Lemma X4_witness :
  exists d',
    own (fst (addKeyword small_table (VString (js "a")) (VString (js "Y"))))
      (js "a") = Some d'
    /\ category_score (js "y z") (js "y z") d'
       = (category_score (js "y z") (js "y z") one_category + 2)%Z.
Proof.
  destruct (@X4_addKeyword_raises_score Latin.unicode small_table (js "a")
              (js "Y") one_category eq_refl) as [d' [H1 H2]].
  exists d'. split; [exact H1|]. exact (H2 (js "y z") (js "y z")).
Defined.


Lemma X6_witness :
  exists r,
    categorize (after []) (VString (js "xyz")) = Normal r
    /\ ((Result.confidence r == 0)%Q
        <-> Forall (fun e => category_score (js "xyz")
                               (trim (toLowerCase (js "xyz"))) (snd e) = 0%Z)
              (after []))
    /\ ((Result.confidence r == 1)%Q
        <-> Exists (fun e => (15 <= category_score (js "xyz")
                                      (trim (toLowerCase (js "xyz"))) (snd e))%Z)
              (after [])).
Proof.
  apply (@X6_confidence_extremes Latin.unicode [] (js "xyz")). discriminate.
Defined.

Lemma X7_witness :
  exists r tags d,
    extractTags (VString (js "zapytaj @szef")) = Normal tags
    /\ In (js "szef") tags
    /\ categorize (after []) (VString (js "zapytaj @szef")) = Normal r
    /\ own (after []) (js "praca") = Some d
    /\ (3 <= category_score (js "zapytaj @szef")
               (trim (toLowerCase (js "zapytaj @szef"))) d)%Z
    /\ (1 # 5 <= Result.confidence r)%Q.
Proof.
  apply (@X7_mention_scores_praca Latin.unicode [] (js "zapytaj @szef")
           (js "szef")).
  exists (js "zapytaj "), []. split; [reflexivity|]. split; [discriminate|].
  split; [reflexivity | exact I].
Defined.

Lemma X9_witness :
  (Z.of_nat (length (truncateText (js "a b c d e") 3)) <= 3 + 3)%Z.
Proof.
  apply (@X9_truncateText_bounds (js "a b c d e") 3%Z). discriminate.
Defined.

Lemma X11_witness :
  (roomy (JArray [JObject first_note]) = true ->
   exists ls',
     add roomy Absent (JObject first_note) = (ls', Normal true)
     /\ getAll ls' = JArray [JObject first_note])
  /\ (roomy (JArray [JObject first_note]) = false ->
      add roomy Absent (JObject first_note) = (Absent, Normal false)).
Proof.
  exact (@X11_add_puts_first roomy Absent (JObject first_note) [] eq_refl).
Defined.

Lemma X12_witness :
  add roomy (Text JNull) (JObject first_note) = (Text JNull, Throw TypeError)
  /\ update roomy categories 0 (Text JNull) (VString (js "a1")) (VString (js "x"))
     = (Text JNull, Throw TypeError)
  /\ delete roomy (Text JNull) (VString (js "a1"))
     = (Text JNull, Throw TypeError)
  /\ getCategories (Text JNull) = Throw TypeError.
Proof.
  apply (@X12_not_an_array Latin.unicode roomy categories 0%Z (Text JNull)).
  discriminate.
Defined.

Lemma two_notes_healthy : healthy two_notes.
Proof.
  exists [JObject first_note; JObject second_note]. split; [reflexivity|].
  repeat constructor; eexists; reflexivity.
Qed.

Lemma two_notes_not_null :
  ~ In JNull [JObject first_note; JObject second_note].
Proof. intros [H|[H|[]]]; discriminate. Qed.

Lemma X13_witness :
  exists categories, getCategories two_notes = Normal categories.
Proof.
  exact (proj2 (proj2 (proj2 (@X13_store_stays_healthy Latin.unicode roomy []
                                two_notes two_notes_healthy)))).
Defined.

Lemma X14_witness :
  exists ls',
    delete roomy two_notes (VString (js "a1")) = (ls', Normal true)
    /\ getAll ls' = JArray [JObject second_note].
Proof.
  destruct (@X14_delete_removes roomy two_notes (VString (js "a1"))
              [JObject first_note; JObject second_note]
              eq_refl two_notes_not_null eq_refl)
    as [ls' [H1 [H2 _]]].
  now exists ls'.
Defined.

Lemma X15_witness :
  update roomy categories 0 two_notes (VString (js "zz")) (VString (js "x"))
  = (two_notes, Normal false).
Proof.
  apply (@X15_update_unknown_id Latin.unicode roomy categories 0%Z two_notes
           (VString (js "zz")) (VString (js "x"))
           [JObject first_note; JObject second_note]).
  - reflexivity.
  - exact two_notes_not_null.
  - intros n [<-|[<-|[]]]; reflexivity.
Defined.

Lemma X16_witness :
  exists r ico o',
    categorize (after []) (VString (js "kupić chleb")) = Normal r
    /\ Result.icon r = VString ico
    /\ own o' (js "content") = Some (JString (js "kupić chleb"))
    /\ own o' (js "id") = own second_note (js "id").
Proof.
  destruct (@X16_update_edits_first_match Latin.unicode roomy [] 5%Z two_notes
              (VString (js "b2")) (js "kupić chleb")
              [JObject first_note] [] second_note)
    as [r [ico [o' [H1 [H2 [_ [H4 [_ [_ [_ H8]]]]]]]]]].
  - reflexivity.
  - intros [H|[]]; discriminate.
  - intros m [<-|[]]. reflexivity.
  - reflexivity.
  - exists r, ico, o'. repeat split; try assumption.
    apply H8. unfold edited_keys. intros [H|[H|[H|[H|[]]]]]; discriminate.
Defined.

Lemma X17_witness :
  getCategories two_notes
  = Normal (map (fun c => Some (JString c))
              (first_occurrences [js "praca"; js "zakupy"])).
Proof.
  exact (proj1 (@X17_getCategories_first_occurrences two_notes
                  [first_note; second_note] [js "praca"; js "zakupy"]
                  eq_refl eq_refl)).
Defined.

Lemma X19_witness :
  saveThought roomy (after []) Absent (js "   ") (js "id1") 1 2
  = Normal {| store := Absent;
              feedback := js "Wpisz coś najpierw";
              cleared := false |}.
Proof.
  apply (@X19_saveThought_outcome Latin.unicode roomy [] Absent (js "   ")
           (js "id1") 1%Z 2%Z [] eq_refl).
  reflexivity.
Defined.

Lemma X21_witness :
  exists out ls',
    saveThought roomy (after []) two_notes (js " kupić mleko ") (js "c3") 1 2
    = Normal out
    /\ cleared out = true
    /\ (exists n, getAll (store out)
                  = JArray [n; JObject first_note; JObject second_note])
    /\ delete roomy (store out) (VString (js "c3")) = (ls', Normal true)
    /\ getAll ls' = JArray [JObject first_note; JObject second_note].
Proof.
  apply (@X21_save_then_delete Latin.unicode roomy [] two_notes
           (js " kupić mleko ") (js "c3") 1%Z 2%Z
           [JObject first_note; JObject second_note]).
  - reflexivity.
  - exact two_notes_not_null.
  - intros n [<-|[<-|[]]]; reflexivity.
  - now vm_compute.
  - reflexivity.
Defined.

Lemma X22_witness :
  exists out r1 tags1 r2 o' ls',
    saveThought roomy (after []) Absent (js "zadzwonić #dom") (js "c3") 1 2
    = Normal out
    /\ categorize (after []) (VString (trim (js "zadzwonić #dom"))) = Normal r1
    /\ extractTags (VString (trim (js "zadzwonić #dom"))) = Normal tags1
    /\ categorize (after []) (VString (js "spotkanie")) = Normal r2
    /\ update roomy (after []) 9 (store out) (VString (js "c3"))
         (VString (js "spotkanie"))
       = (ls', Normal true)
    /\ getAll ls' = JArray [JObject o']
    /\ own o' (js "id") = Some (JString (js "c3"))
    /\ own o' (js "content") = Some (JString (js "spotkanie"))
    /\ own o' (js "category") = Some (JString (Result.category r2))
    /\ own o' (js "updatedAt") = Some (JNumber (inject_Z 9))
    /\ own o' (js "createdAt") = Some (JNumber (inject_Z 1))
    /\ own o' (js "confidence") = Some (JNumber (Result.confidence r1))
    /\ own o' (js "tags") = Some (JArray (map JString tags1)).
Proof.
  apply (@X22_update_keeps_confidence_and_tags Latin.unicode roomy [] Absent
           (js "zadzwonić #dom") (js "c3") (js "spotkanie") 1%Z 2%Z 9%Z []).
  - reflexivity.
  - now vm_compute.
  - reflexivity.
Defined.

End MoreWitnesses.
